(** * Image Text Reader extension: speech playback controller and history store

    A shallow embedding of [TTSManager] (utils/tts.js, inlined again in
    content/content.js and in the options page) and of
    [StorageManager.addHistoryEntry] (utils/storage.js, inlined again in the
    background script), with the properties of the playback controller that
    the specification states.

    JavaScript strings are sequences of UTF-16 code units, arrays are lists,
    numbers that hold array indices and character offsets are integers.  The
    speech engine ([window.speechSynthesis]) is an external collaborator: the
    commands the controller sends to it and the observer callbacks the
    controller invokes are recorded, in order, in a trace; the events the
    engine fires on an utterance are inputs.

    Further down: the preferences store, the options page ([truncateUrl],
    the handler that saves the API key), [GeminiAPI.batchExtractText] and
    [handleExtractText] of the background script, and the image selection
    and the reading loop of [ImageTextReader] in the content script. *)

From Stdlib Require Import String Ascii.
From Stdlib Require Import List ZArith NArith QArith Bool Lia.
From Stdlib Require Import Sorted DecimalString.
From Stdlib Require Import DecimalN.
Import ListNotations.

Close Scope Q_scope.

(* ================================================================== *)
(** * JavaScript built-ins used by the source *)
(* ================================================================== *)

Module JS.

(** A string is a list of UTF-16 code units. *)
Definition code_unit := N.
Definition jsstring := list code_unit.

(** An ASCII literal of the source as a [jsstring]. *)
Definition str (s : String.string) : jsstring :=
  map N_of_ascii (String.list_ascii_of_string s).

Fixpoint eqb (a b : jsstring) : bool :=
  match a, b with
  | [], [] => true
  | x :: a', y :: b' => N.eqb x y && eqb a' b'
  | _, _ => false
  end.

(** The class [\s] of a regular expression: WhiteSpace and LineTerminator
    of ECMAScript (TAB, LF, VT, FF, CR, SP, NBSP, the Unicode space
    separators, LS, PS and the byte order mark). *)
Definition is_white_space (c : code_unit) : bool :=
  ((9 <=? c) && (c <=? 13)
   || (c =? 32) || (c =? 160) || (c =? 5760)
   || (8192 <=? c) && (c <=? 8202)
   || (c =? 8232) || (c =? 8233) || (c =? 8239) || (c =? 8287)
   || (c =? 12288) || (c =? 65279))%N.

(** [s.split(/\s+/)]: the pieces of [s] between the maximal runs of white
    space.  The empty string gives [[""]]; white space at either end of
    [s] gives an empty piece there. *)
Fixpoint split_ws (s : jsstring) : list jsstring :=
  match s with
  | [] => [[]]
  | c :: rest =>
      if is_white_space c then
        match rest with
        | c' :: _ =>
            if is_white_space c' then split_ws rest else [] :: split_ws rest
        | [] => [] :: split_ws rest
        end
      else
        match split_ws rest with
        | piece :: pieces => (c :: piece) :: pieces
        | [] => [[c]]
        end
  end.

(** The same split written as the steps of String.prototype.split: [p] is
    where the current piece starts, [q] scans forward; [pending] holds the
    code units of [s[p..q)] in reverse.  A match of [\s+] at [q] is greedy:
    it closes the piece and consumes the whole run ([skip_run]). *)
Fixpoint split_scan (pending : jsstring) (s : jsstring) : list jsstring :=
  match s with
  | [] => [rev pending]
  | c :: rest =>
      if is_white_space c then rev pending :: skip_run rest
      else split_scan (c :: pending) rest
  end
with skip_run (s : jsstring) : list jsstring :=
  match s with
  | [] => [[]]
  | c :: rest =>
      if is_white_space c then skip_run rest else split_scan [c] rest
  end.

Definition split_by_steps (s : jsstring) : list jsstring := split_scan [] s.

(** The pieces [pieces] of a string, with the pending code units put back
    in front of the first one. *)
Definition onto_first (pending : jsstring) (pieces : list jsstring)
  : list jsstring :=
  match pieces with
  | piece :: rest => (rev pending ++ piece) :: rest
  | [] => [rev pending]
  end.

(** [s.substring(0, finish)]: the end is clamped to [0 .. s.length]. *)
Definition substring0 (s : jsstring) (finish : Z) : jsstring :=
  let len := Z.of_nat (length s) in
  firstn (Z.to_nat (Z.min (Z.max finish 0) len)) s.

(** [a[i]] for an integer [i]: [None] stands for [undefined]. *)
Definition index {A : Type} (a : list A) (i : Z) : option A :=
  if (i <? 0)%Z then None else nth_error a (Z.to_nat i).

(** [a.slice(start)]: a negative start counts from the end. *)
Definition slice_from {A : Type} (a : list A) (start : Z) : list A :=
  let len := Z.of_nat (length a) in
  let k := if (start <? 0)%Z then Z.max (len + start) 0 else Z.min start len in
  skipn (Z.to_nat k) a.

(** [a.slice(0, finish)] for a non-negative integer [finish]. *)
Definition slice_to {A : Type} (a : list A) (finish : nat) : list A :=
  firstn (Nat.min finish (length a)) a.

(** [a.join(" ")]. *)
Fixpoint join_space (a : list jsstring) : jsstring :=
  match a with
  | [] => []
  | [x] => x
  | x :: rest => x ++ 32%N :: join_space rest
  end.

(** [a.unshift(x)]. *)
Definition unshift {A : Type} (x : A) (a : list A) : list A := x :: a.

(** [n.toString()] for a non-negative integer [n]. *)
Definition toString (n : N) : jsstring :=
  str (NilZero.string_of_uint (N.to_uint n)).

(** [s.trim()]: white space and line terminators, the class [\s], are
    removed at both ends. *)
Fixpoint trimStart (s : jsstring) : jsstring :=
  match s with
  | c :: rest => if is_white_space c then trimStart rest else s
  | [] => []
  end.

Definition trim (s : jsstring) : jsstring :=
  rev (trimStart (rev (trimStart s))).

(** [s.startsWith(prefix)] *)
Fixpoint startsWith (prefix s : jsstring) : bool :=
  match prefix, s with
  | [], _ => true
  | p :: prefix', c :: s' => N.eqb p c && startsWith prefix' s'
  | _ :: _, [] => false
  end.

(** [s.substring(start)]: the start is clamped to [0 .. s.length]. *)
Definition substring_from (s : jsstring) (start : Z) : jsstring :=
  let len := Z.of_nat (length s) in
  skipn (Z.to_nat (Z.min (Z.max start 0) len)) s.

(** [Math.floor(n / 2)] and [Math.ceil(n / 2)] for an integer [n]. *)
Definition floor_half (n : Z) : Z := (n / 2)%Z.
Definition ceil_half (n : Z) : Z := (- ((- n) / 2))%Z.

(** [a.slice(start, finish)] for non-negative integers. *)
Definition slice {A : Type} (a : list A) (start finish : nat) : list A :=
  firstn (finish - start) (skipn start a).

(** [a.push(x)] *)
Definition push {A : Type} (a : list A) (x : A) : list A := a ++ [x].

(** [a.splice(index, 1)]: the array without the element at [index]; a
    negative index counts from the end. *)
Definition splice1 {A : Type} (a : list A) (index : Z) : list A :=
  let len := Z.of_nat (length a) in
  let k := Z.to_nat (if (index <? 0)%Z then Z.max (len + index) 0
                     else Z.min index len) in
  firstn k a ++ skipn (S k) a.

(** The pieces of [a ++ b] from the pieces of [a] and of [b], when the cut
    is not inside a run of white space: the last piece of [a] and the first
    piece of [b] are one piece. *)
Fixpoint glue (xs ys : list jsstring) : list jsstring :=
  match xs with
  | [] => ys
  | [x] => match ys with
           | y :: ys' => (x ++ y) :: ys'
           | [] => [x]
           end
  | x :: xs' => x :: glue xs' ys
  end.

(** A code unit that is not white space. *)
Definition plain (c : code_unit) : bool := negb (is_white_space c).

(** A word as a reader sees it: not empty and without white space. *)
Definition is_word (s : jsstring) : bool :=
  match s with
  | [] => false
  | _ :: _ => forallb (fun c => negb (is_white_space c)) s
  end.

(** A position where a word may start: the start of the text or right
    after white space; and where one may end: the end of the text or right
    before white space. *)
Definition ends_in_gap (before : jsstring) : bool :=
  match rev before with
  | [] => true
  | c :: _ => is_white_space c
  end.

Definition starts_with_gap (after : jsstring) : bool :=
  match after with
  | [] => true
  | c :: _ => is_white_space c
  end.

End JS.

(* ================================================================== *)
(** * TTSManager *)
(* ================================================================== *)

Module TTS.
Import JS.

(** What may be stored where the source expects an observer function.
    Observers are opaque: invoking one is recorded in the trace, and an
    observer does not call back into the controller while it runs. *)
Inductive callback :=
| cb_undefined
| cb_null
| cb_function (f : nat).

Definition is_function (c : callback) : bool :=
  match c with cb_function _ => true | _ => false end.

Module Voice.
Record t := { name : jsstring; lang : jsstring }.
End Voice.

(** The [options] argument of [speak]; [None] is a property left out. *)
Module Options.
Record t := {
  rate : option Q;
  voiceName : option jsstring;
  onWordChange : callback;
  onEnd : callback
}.
End Options.

(** A SpeechSynthesisUtterance.  [id] stands for the identity of the
    object: the number of utterances created before it.  Its [onboundary]
    and [onend] handlers are the closures [onboundary] and [onend] below;
    they read and write the manager, not the utterance. *)
Module Utterance.
Record t := {
  id : nat;
  text : jsstring;
  rate : Q;
  voice : option Voice.t
}.
End Utterance.

(** A SpeechSynthesisEvent as the boundary handler reads it. *)
Module Event.
Record t := { name : jsstring; charIndex : Z }.
End Event.

Record TTSManager := {
  utterance : option Utterance.t;
  currentText : jsstring;
  isPlaying : bool;
  currentWord : option jsstring;
  wordIndex : Z;
  words : list jsstring;
  onWordChange : callback;
  onEnd : callback
}.

(** What the controller does to the outside, in the order it does it. *)
Inductive effect :=
| synth_cancel
| synth_speak (u : Utterance.t)
| synth_pause
| synth_resume
| call_onWordChange (f : nat) (word : option jsstring) (index : Z)
| call_onEnd (f : nat).

(** The manager together with its surroundings: the voices
    [synth.getVoices()] returns, the number of utterances created so far,
    and the trace. *)
Record world := {
  this : TTSManager;
  voices : list Voice.t;
  created : nat;
  trace : list effect
}.

Inductive error := TypeError.

Inductive outcome :=
| returned (w : world)
| threw (e : error) (w : world).

Definition world_of (o : outcome) : world :=
  match o with returned w => w | threw _ w => w end.

(** The state the constructor leaves. *)
Definition constructed : TTSManager :=
  {| utterance := None; currentText := []; isPlaying := false;
     currentWord := Some []; wordIndex := 0; words := [];
     onWordChange := cb_null; onEnd := cb_null |}.

Definition fresh (vs : list Voice.t) : world :=
  {| this := constructed; voices := vs; created := 0; trace := [] |}.

Definition emit (e : effect) (w : world) : world :=
  {| this := this w; voices := voices w; created := created w;
     trace := trace w ++ [e] |}.

Definition with_this (m : TTSManager) (w : world) : world :=
  {| this := m; voices := voices w; created := created w; trace := trace w |}.

Definition set_isPlaying (b : bool) (m : TTSManager) : TTSManager :=
  {| utterance := utterance m; currentText := currentText m; isPlaying := b;
     currentWord := currentWord m; wordIndex := wordIndex m;
     words := words m; onWordChange := onWordChange m; onEnd := onEnd m |}.

(** [stop()] *)
Definition stop (w : world) : world :=
  let w := emit synth_cancel w in
  let m := this w in
  with_this
    {| utterance := None; currentText := []; isPlaying := false;
       currentWord := currentWord m; wordIndex := 0; words := [];
       onWordChange := onWordChange m; onEnd := onEnd m |} w.

(** [options.rate || 1.0] *)
Definition rate_or_default (r : option Q) : Q :=
  match r with
  | Some q => if Qeq_bool q 0 then 1%Q else q
  | None => 1%Q
  end.

(** The voice [speak] leaves on the utterance: the first voice of the
    engine whose name is [options.voiceName], when that name is a non-empty
    string and such a voice exists; otherwise the utterance keeps no voice. *)
Definition resolve_voice (n : option jsstring) (vs : list Voice.t)
  : option Voice.t :=
  match n with
  | Some (c :: s) => find (fun v => eqb (Voice.name v) (c :: s)) vs
  | Some [] => None
  | None => None
  end.

(** [speak(text, options)] *)
Definition speak (text : jsstring) (options : Options.t) (w : world) : world :=
  let w := stop w in
  let m := this w in
  let u := {| Utterance.id := created w;
              Utterance.text := text;
              Utterance.rate := rate_or_default (Options.rate options);
              Utterance.voice :=
                resolve_voice (Options.voiceName options) (voices w) |} in
  let m :=
    {| utterance := Some u; currentText := text; isPlaying := true;
       currentWord := currentWord m; wordIndex := 0;
       words := split_ws text;
       onWordChange := Options.onWordChange options;
       onEnd := Options.onEnd options |} in
  emit (synth_speak u)
    {| this := m; voices := voices w; created := S (created w);
       trace := trace w |}.

(** The [onboundary] handler [speak] installs on its utterance. *)
Definition onboundary (event : Event.t) (w : world) : world :=
  if eqb (Event.name event) (str "word") then
    let m := this w in
    let upToIndex := substring0 (currentText m) (Event.charIndex event) in
    let i := (Z.of_nat (length (split_ws upToIndex)) - 1)%Z in
    let word := index (words m) i in
    let w :=
      with_this
        {| utterance := utterance m; currentText := currentText m;
           isPlaying := isPlaying m; currentWord := word; wordIndex := i;
           words := words m; onWordChange := onWordChange m;
           onEnd := onEnd m |} w in
    match onWordChange m with
    | cb_function f => emit (call_onWordChange f word i) w
    | _ => w
    end
  else w.

(** The [onend] handler [speak] installs on its utterance. *)
Definition onend (w : world) : world :=
  let w := with_this (set_isPlaying false (this w)) w in
  match onEnd (this w) with
  | cb_function f => emit (call_onEnd f) w
  | _ => w
  end.

(** [pause()] *)
Definition pause (w : world) : world :=
  if isPlaying (this w) then
    let w := emit synth_pause w in
    with_this (set_isPlaying false (this w)) w
  else w.

(** [resume()] *)
Definition resume (w : world) : world :=
  match negb (isPlaying (this w)), utterance (this w) with
  | true, Some _ =>
      let w := emit synth_resume w in
      with_this (set_isPlaying true (this w)) w
  | _, _ => w
  end.

(** [togglePlayPause()] *)
Definition togglePlayPause (w : world) : world :=
  if isPlaying (this w) then pause w else resume w.

(** [isCurrentlyPlaying()] *)
Definition isCurrentlyPlaying (w : world) : bool := isPlaying (this w).

(** [changeRate(rate)].  The arguments of the inner [speak] are evaluated
    after [this.stop()] has run: [this.words] and [this.utterance] are read
    from the stopped manager, and reading [.voice] of a null
    [this.utterance] throws. *)
Definition changeRate (rate : Q) (w : world) : outcome :=
  match utterance (this w) with
  | Some _ =>
      let wasPlaying := isPlaying (this w) in
      let currentIndex := wordIndex (this w) in
      let w := stop w in
      let remainingText :=
        join_space (slice_from (words (this w)) currentIndex) in
      match utterance (this w) with
      | None => threw TypeError w
      | Some u =>
          let options :=
            {| Options.rate := Some rate;
               Options.voiceName :=
                 match Utterance.voice u with
                 | Some v => Some (Voice.name v)
                 | None => None
                 end;
               Options.onWordChange := onWordChange (this w);
               Options.onEnd := onEnd (this w) |} in
          let w := speak remainingText options w in
          returned (if negb wasPlaying then pause w else w)
      end
  | None => returned w
  end.

(** The text [changeRate] has computed for the new session at the point
    where it evaluates the arguments of the inner [speak]. *)
Definition changeRate_remainingText (w : world) : jsstring :=
  let currentIndex := wordIndex (this w) in
  let w := stop w in
  join_space (slice_from (words (this w)) currentIndex).

(** One thing that happens to the controller: a call from the page, or an
    event the engine fires on the utterance with the given identity.  An
    utterance that was never created has no handlers. *)
Inductive step :=
| call_speak (text : jsstring) (options : Options.t)
| call_pause
| call_resume
| call_togglePlayPause
| call_stop
| call_changeRate (rate : Q)
| fire_boundary (u : nat) (event : Event.t)
| fire_end (u : nat).

Definition perform (s : step) (w : world) : outcome :=
  match s with
  | call_speak text options => returned (speak text options w)
  | call_pause => returned (pause w)
  | call_resume => returned (resume w)
  | call_togglePlayPause => returned (togglePlayPause w)
  | call_stop => returned (stop w)
  | call_changeRate rate => changeRate rate w
  | fire_boundary u event =>
      returned (if u <? created w then onboundary event w else w)
  | fire_end u => returned (if u <? created w then onend w else w)
  end.

(** The world after a step; what a step throws goes to its caller, the
    manager stays as the step left it. *)
Definition exec (s : step) (w : world) : world := world_of (perform s w).

Definition run (steps : list step) (w : world) : world :=
  fold_left (fun w s => exec s w) steps w.

(** Steps that neither start nor end a session: they keep the text, the
    words and the stored observers. *)
Definition keeps_session (s : step) : bool :=
  match s with
  | call_pause | call_resume | call_togglePlayPause
  | fire_boundary _ _ => true
  | _ => false
  end.

(** How many times [onEnd] observers were invoked in a trace. *)
Definition end_calls (t : list effect) : nat :=
  length (filter (fun e => match e with call_onEnd _ => true | _ => false end) t).

(** Two worlds in the same session: same utterance, text, words and
    observers, no utterance created and no [onEnd] invoked in between. *)
Definition same_session (w w' : world) : Prop :=
  utterance (this w') = utterance (this w)
  /\ currentText (this w') = currentText (this w)
  /\ words (this w') = words (this w)
  /\ onWordChange (this w') = onWordChange (this w)
  /\ onEnd (this w') = onEnd (this w)
  /\ created w' = created w
  /\ end_calls (trace w') = end_calls (trace w).

(** The word index the boundary handler computes for an offset into [text]. *)
Definition word_index_at (text : jsstring) (offset : Z) : Z :=
  Z.of_nat (length (split_ws (substring0 text offset))) - 1.

(** Options that name two observers and nothing else. *)
Definition observed_by (f g : nat) : Options.t :=
  {| Options.rate := None; Options.voiceName := None;
     Options.onWordChange := cb_function f;
     Options.onEnd := cb_function g |}.

(** The inputs of the scenarios: an options object that asks for a voice
    the engine does not have, an engine with one voice, a session that has
    reached its second word, steps within a session, and the utterances two
    successive [speak] calls create on a fresh manager. *)
Definition unknown_voice_options : Options.t :=
  {| Options.rate := None;
     Options.voiceName :=
       Some (str "nonexistent-voice");
     Options.onWordChange := cb_undefined;
     Options.onEnd := cb_undefined |}.

Definition one_voice_engine : world :=
  fresh [ {| Voice.name := str "Google US English";
             Voice.lang := str "en-US" |} ].

Definition utterance_a : Utterance.t :=
  {| Utterance.id := 0; Utterance.text := str "a";
     Utterance.rate := 1%Q; Utterance.voice := None |}.

Definition utterance_b : Utterance.t :=
  {| Utterance.id := 1; Utterance.text := str "b";
     Utterance.rate := 1%Q; Utterance.voice := None |}.

Definition word_event (offset : Z) : Event.t :=
  {| Event.name := str "word"; Event.charIndex := offset |}.

Definition is_word_event (event : Event.t) : bool :=
  eqb (Event.name event) (str "word").

(** The values [wordIndex] takes while the boundary events [events] are
    handled one after the other, the value before the first event first. *)
Fixpoint wordIndex_history (events : list Event.t) (w : world) : list Z :=
  match events with
  | [] => [wordIndex (this w)]
  | event :: rest =>
      wordIndex (this w) :: wordIndex_history rest (onboundary event w)
  end.

Definition at_second_word : world :=
  onboundary (word_event 4)
    (speak (str "The quick brown fox") (observed_by 1 2) (fresh [])).

Definition session_steps : list step :=
  [fire_boundary 0 (word_event 4); call_pause; call_resume;
   fire_boundary 0 (word_event 16)].

Definition known_voice_options : Options.t :=
  {| Options.rate := None;
     Options.voiceName := Some (str "Google US English");
     Options.onWordChange := cb_undefined;
     Options.onEnd := cb_undefined |}.

(** What holds of the manager between any two steps: with an utterance it
    has that utterance's text, the words of the text and a word index that
    is an index into them; without one it is cleared and not playing. *)
Definition session_invariant (m : TTSManager) : Prop :=
  match utterance m with
  | Some u =>
      currentText m = Utterance.text u
      /\ words m = split_ws (currentText m)
      /\ (0 <= wordIndex m < Z.of_nat (length (words m)))%Z
  | None =>
      currentText m = [] /\ words m = [] /\ wordIndex m = 0%Z
      /\ isPlaying m = false
  end.

(** Every [synth_speak] of a trace comes right after a [synth_cancel];
    [cancelled] says whether the effect before the trace was a cancel. *)
Fixpoint speaks_follow_cancel (cancelled : bool) (t : list effect) : bool :=
  match t with
  | [] => true
  | synth_cancel :: rest => speaks_follow_cancel true rest
  | synth_speak _ :: rest => cancelled && speaks_follow_cancel false rest
  | _ :: rest => speaks_follow_cancel false rest
  end.

(** Whether the last effect of a trace is a cancel. *)
Fixpoint ends_with_cancel (cancelled : bool) (t : list effect) : bool :=
  match t with
  | [] => cancelled
  | synth_cancel :: rest => ends_with_cancel true rest
  | _ :: rest => ends_with_cancel false rest
  end.

(** Steps after which the session that a [speak] began is still the
    manager's session: all but [speak], [stop] and [changeRate].  The
    completion events of any utterance are among them. *)
Definition within_session (s : step) : bool :=
  match s with
  | call_speak _ _ | call_stop | call_changeRate _ => false
  | _ => true
  end.

(** The completion events among [steps] that find a handler when [n]
    utterances have been created. *)
Definition completions (n : nat) (steps : list step) : nat :=
  length
    (filter (fun s => match s with fire_end u => u <? n | _ => false end)
       steps).

(** The observers invoked as [onEnd] in a trace, in the order of the calls. *)
Definition end_observers (t : list effect) : list nat :=
  flat_map (fun e => match e with call_onEnd f => [f] | _ => [] end) t.

(** The manager after a first [speak]; a later [speak] supersedes its
    utterance, which the engine still knows. *)
Definition superseding : world :=
  speak (str "a") (observed_by 1 7) (fresh []).

End TTS.

(* ================================================================== *)
(** * StorageManager: the reading history *)
(* ================================================================== *)

Module Storage.
Import JS.

(** The [entry] argument of [addHistoryEntry], with the properties its
    documentation lists and its caller [saveToHistory] supplies.  It has no
    [id] of its own, so the spread in [{ id, ...entry }] leaves the
    generated id in place. *)
Module Entry.
Record t := {
  url : jsstring;
  timestamp : N;
  extractedText : jsstring
}.
End Entry.

(** An element of the stored history: [{ id, ...entry }]. *)
Module HistoryEntry.
Record t := {
  id : jsstring;
  url : jsstring;
  timestamp : N;
  extractedText : jsstring
}.
End HistoryEntry.

(** [chrome.storage.local] as far as the history is concerned; [None] is a
    store in which the key [history] was never set. *)
Record local := { history : option (list HistoryEntry.t) }.

(** [result.history || []] *)
Definition getHistory (s : local) : list HistoryEntry.t :=
  match history s with
  | Some h => h
  | None => []
  end.

Definition history_limit : nat := 100.

(** [addHistoryEntry(entry)], run without another writer in between its
    read and its write of the store; [now] is what [Date.now()] returns. *)
Definition addHistoryEntry (now : N) (entry : Entry.t) (s : local) : local :=
  let id := toString now in
  let newEntry :=
    {| HistoryEntry.id := id;
       HistoryEntry.url := Entry.url entry;
       HistoryEntry.timestamp := Entry.timestamp entry;
       HistoryEntry.extractedText := Entry.extractedText entry |} in
  let history := getHistory s in
  let history := unshift newEntry history in
  let limitedHistory := slice_to history history_limit in
  {| history := Some limitedHistory |}.

(** The element [addHistoryEntry] puts in front: [{ id, ...entry }] with
    the id made from the clock. *)
Definition entry_at (now : N) (entry : Entry.t) : HistoryEntry.t :=
  {| HistoryEntry.id := toString now;
     HistoryEntry.url := Entry.url entry;
     HistoryEntry.timestamp := Entry.timestamp entry;
     HistoryEntry.extractedText := Entry.extractedText entry |}.

(** Several [addHistoryEntry] calls one after the other, each with its
    clock reading. *)
Definition addHistoryEntries (adds : list (N * Entry.t)) (s : local) : local :=
  fold_left (fun s a => addHistoryEntry (fst a) (snd a) s) adds s.

(** [clearHistory()] *)
Definition clearHistory (s : local) : local := {| history := Some [] |}.

(** [chrome.storage.sync] as far as the preferences are concerned; [None]
    is a key that was never set. *)
Record sync := {
  apiKey : option jsstring;
  defaultSpeed : option Q;
  defaultVoice : option jsstring
}.

(** [saveApiKey(apiKey)], [saveDefaultSpeed(speed)],
    [saveDefaultVoice(voice)]: [set] writes the one key. *)
Definition saveApiKey (key : jsstring) (s : sync) : sync :=
  {| apiKey := Some key; defaultSpeed := defaultSpeed s;
     defaultVoice := defaultVoice s |}.

Definition saveDefaultSpeed (speed : Q) (s : sync) : sync :=
  {| apiKey := apiKey s; defaultSpeed := Some speed;
     defaultVoice := defaultVoice s |}.

Definition saveDefaultVoice (voice : jsstring) (s : sync) : sync :=
  {| apiKey := apiKey s; defaultSpeed := defaultSpeed s;
     defaultVoice := Some voice |}.

(** [result.key || ''] for a string. *)
Definition string_or_empty (v : option jsstring) : jsstring :=
  match v with
  | Some (c :: s) => c :: s
  | Some [] => []
  | None => []
  end.

(** [getApiKey()], [getDefaultSpeed()], [getDefaultVoice()] *)
Definition getApiKey (s : sync) : jsstring := string_or_empty (apiKey s).

Definition getDefaultSpeed (s : sync) : Q :=
  match defaultSpeed s with
  | Some q => if Qeq_bool q 0 then 1%Q else q
  | None => 1%Q
  end.

Definition getDefaultVoice (s : sync) : jsstring :=
  string_or_empty (defaultVoice s).

(** [resetAllPreferences()] *)
Definition resetAllPreferences (s : sync) : sync :=
  {| apiKey := Some []; defaultSpeed := Some 1%Q; defaultVoice := Some [] |}.

Definition unset : sync :=
  {| apiKey := None; defaultSpeed := None; defaultVoice := None |}.

(** Two readings of one page a second apart, as [saveToHistory] sends
    them. *)
Definition two_readings : list (N * Entry.t) :=
  [ (1700000000000%N,
     {| Entry.url := str "https://example.org/";
        Entry.timestamp := 1700000000000%N;
        Entry.extractedText := str "first" |});
    (1700000001000%N,
     {| Entry.url := str "https://example.org/";
        Entry.timestamp := 1700000001000%N;
        Entry.extractedText := str "second" |}) ].

End Storage.

(* ================================================================== *)
(** * The options page *)
(* ================================================================== *)

Module OptionsPage.
Import JS.

(** [url.replace(/^https?:\/\//, "")] *)
Definition strip_protocol (url : jsstring) : jsstring :=
  if startsWith (str "https://") url then skipn 8 url
  else if startsWith (str "http://") url then skipn 7 url
  else url.

(** [truncateUrl(url, maxLength)] for an integer [maxLength]. *)
Definition truncateUrl (url : jsstring) (maxLength : Z) : jsstring :=
  if (Z.of_nat (length url) <=? maxLength)%Z then url
  else
    let displayUrl := strip_protocol url in
    if (Z.of_nat (length displayUrl) <=? maxLength)%Z then displayUrl
    else
      let start := floor_half (maxLength - 3) in
      let finish := ceil_half (maxLength - 3) in
      substring0 displayUrl start
      ++ str "..."
      ++ substring_from displayUrl (Z.of_nat (length displayUrl) - finish).

(** What [showStatus] is given. *)
Inductive status :=
| status_error (message : jsstring)
| status_success (message : jsstring).

(** The click handler [saveApiKey] of the page, with the storage call
    succeeding: the value of the input is trimmed, and an empty result is
    refused. *)
Definition saveApiKey (input : jsstring) (s : Storage.sync)
  : Storage.sync * status :=
  let apiKey := trim input in
  match apiKey with
  | [] => (s, status_error (str "Please enter an API key"))
  | _ :: _ =>
      (Storage.saveApiKey apiKey s,
       status_success (str "API key saved successfully"))
  end.

(** A key as it should be stored: not empty, no white space at either
    end. *)
Definition trimmed (key : jsstring) : Prop :=
  key <> [] /\ starts_with_gap key = false /\ ends_in_gap key = false.

(** A history URL that does not fit the fifty characters the page shows. *)
Definition long_url : jsstring :=
  str "https://example.org/a/very/long/path/that/does/not/fit/into/fifty/characters.html".

(** The click handler [resetAllPreferences] of the page once the user has
    confirmed: both stores are reset. *)
Definition resetAllPreferences (s : Storage.sync) (l : Storage.local)
  : Storage.sync * Storage.local :=
  (Storage.resetAllPreferences s, Storage.clearHistory l).

End OptionsPage.

(* ================================================================== *)
(** * GeminiAPI and the background script *)
(* ================================================================== *)

Module Gemini.
Import JS.

Definition is_line_terminator (c : code_unit) : bool :=
  ((c =? 10) || (c =? 13) || (c =? 8232) || (c =? 8233))%N.

(** The code units before the first [;] and the rest from that [;] on. *)
Fixpoint until_semicolon (s : jsstring) : jsstring * jsstring :=
  match s with
  | [] => ([], [])
  | c :: rest =>
      if (c =? 59)%N then ([], s)
      else let (taken, left) := until_semicolon rest in (c :: taken, left)
  end.

Definition strip_prefix (prefix s : jsstring) : option jsstring :=
  if startsWith prefix s then Some (skipn (length prefix) s) else None.

(** [imageData.match(/^data:([^;]+);base64,(.+)$/)]: the two groups, or
    [None] for [null].  [[^;]+] stops at the first [;], and [.] matches no
    line terminator. *)
Definition match_data_url (imageData : jsstring)
  : option (jsstring * jsstring) :=
  match strip_prefix (str "data:") imageData with
  | None => None
  | Some rest =>
      let (mimeType, rest) := until_semicolon rest in
      match mimeType with
      | [] => None
      | _ :: _ =>
          match strip_prefix (str ";base64,") rest with
          | None => None
          | Some base64 =>
              match base64 with
              | [] => None
              | _ :: _ =>
                  if forallb (fun c => negb (is_line_terminator c)) base64
                  then Some (mimeType, base64)
                  else None
              end
          end
      end
  end.

(** How the promise of one [extractTextFromImage(imageData)] settles: with
    the text of the first part of the answer, which may be missing, or with
    the message of an error.  It depends on the network and is an input. *)
Inductive settled :=
| fulfilled (text : option jsstring)
| rejected (message : jsstring).

Definition value_of (p : settled) : option jsstring :=
  match p with fulfilled text => text | rejected _ => None end.

Definition is_fulfilled (p : settled) : bool :=
  match p with fulfilled _ => true | rejected _ => false end.

(** [await Promise.all(promises)]: the values in order when every promise
    is fulfilled. *)
Fixpoint all_fulfilled (promises : list settled)
  : option (list (option jsstring)) :=
  match promises with
  | [] => Some []
  | fulfilled text :: rest =>
      match all_fulfilled rest with
      | Some texts => Some (text :: texts)
      | None => None
      end
  | rejected _ :: _ => None
  end.

(** The messages of the promises of a batch that are rejected, in the order
    of the batch; [Promise.all] rejects with the one that comes first in
    time. *)
Fixpoint rejections (promises : list settled) : list jsstring :=
  match promises with
  | [] => []
  | fulfilled _ :: rest => rejections rest
  | rejected message :: rest => message :: rejections rest
  end.

Inductive outcome :=
| resolved (results : list (option jsstring))
| failed (messages : list jsstring)
| unfinished.

(** What a call has come to, and the image data for which
    [extractTextFromImage] was called, in order. *)
Record run := { result : outcome; requested : list jsstring }.

Definition batchSize : nat := 5.

(** The loop of [batchExtractText]; [fuel] bounds the number of tests of
    [i < imageDataArray.length]. *)
Fixpoint batch_loop (extractTextFromImage : jsstring -> settled)
    (imageDataArray : list jsstring) (fuel i : nat)
    (results : list (option jsstring)) (called : list jsstring) : run :=
  match fuel with
  | O => {| result := unfinished; requested := called |}
  | S fuel' =>
      if i <? length imageDataArray then
        let batch := slice imageDataArray i (i + batchSize) in
        let promises := map extractTextFromImage batch in
        let called := called ++ batch in
        match all_fulfilled promises with
        | Some batchResults =>
            batch_loop extractTextFromImage imageDataArray fuel'
              (i + batchSize) (results ++ batchResults) called
        | None =>
            {| result := failed (rejections promises); requested := called |}
        end
      else {| result := resolved results; requested := called |}
  end.

(** [batchExtractText(imageDataArray)] *)
Definition batchExtractText (extractTextFromImage : jsstring -> settled)
    (imageDataArray : list jsstring) : run :=
  batch_loop extractTextFromImage imageDataArray
    (S (length imageDataArray)) 0 [] [].

(** [handleExtractText(imageDataArray)] of the background script; [api key]
    is [extractTextFromImage] of a [GeminiAPI] made with that key. *)
Definition handleExtractText (api : jsstring -> jsstring -> settled)
    (store : Storage.sync) (imageDataArray : list jsstring) : run :=
  match Storage.getApiKey store with
  | [] =>
      {| result :=
           failed [str "Gemini API key is not set. Please set it in the options page."];
         requested := [] |}
  | c :: key => batchExtractText (api (c :: key)) imageDataArray
  end.

(** Two ways the API may answer: every image, with its own address as the
    text; or every image but those that are no [http] addresses. *)
Definition answers_all (imageData : jsstring) : settled :=
  fulfilled (Some imageData).

Definition answers_http_only (imageData : jsstring) : settled :=
  if startsWith (str "http") imageData then fulfilled (Some imageData)
  else rejected (str "Invalid base64 image data").

Definition seven_images : list jsstring :=
  [str "http://a/1"; str "http://a/2"; str "http://a/3"; str "http://a/4";
   str "http://a/5"; str "http://a/6"; str "http://a/7"].

End Gemini.

(* ================================================================== *)
(** * ImageTextReader: images and their selection *)
(* ================================================================== *)

Module Reader.
Import JS.

(** An [img] element: [node] is its identity, [width] and [height] are
    those of its bounding rectangle. *)
Record Img := {
  node : nat;
  src : jsstring;
  width : Q;
  height : Q
}.

(** The reader as far as images go, with the borders it has drawn on the
    page ([border n] says that the image [n] has the selection border) and
    the text of its overlay ([None]: no overlay). *)
Record ImageTextReader := {
  images : list Img;
  selectedImages : list Img;
  extractedTexts : list jsstring;
  isActive : bool;
  ttsManager : TTS.world;
  overlay : option jsstring;
  border : nat -> bool
}.

Definition constructed (vs : list TTS.Voice.t) : ImageTextReader :=
  {| images := []; selectedImages := []; extractedTexts := [];
     isActive := false; ttsManager := TTS.fresh vs; overlay := None;
     border := fun _ => false |}.

(** [a.indexOf(img)] on an array of elements: the first index at which the
    same element stands, or -1. *)
Fixpoint indexOf (img : Img) (a : list Img) : Z :=
  match a with
  | [] => (-1)%Z
  | x :: rest =>
      if Nat.eqb (node x) (node img) then 0%Z
      else let i := indexOf img rest in
           if (i <? 0)%Z then (-1)%Z else (i + 1)%Z
  end.

Definition set_border (n : nat) (b : bool) (border : nat -> bool)
  : nat -> bool :=
  fun k => if Nat.eqb k n then b else border k.

(** The filter of [scanImages]. *)
Definition likely_text (img : Img) : bool :=
  let isVisible :=
    negb (Qle_bool (width img) 0) && negb (Qle_bool (height img) 0) in
  let hasReasonableSize :=
    Qle_bool 50 (width img) && Qle_bool 50 (height img) in
  isVisible && hasReasonableSize.

(** [scanImages()] on a page whose [img] elements are [page], in document
    order: the new reader and the count it returns. *)
Definition scanImages (page : list Img) (r : ImageTextReader)
  : ImageTextReader * nat :=
  let found := filter likely_text page in
  ({| images := found; selectedImages := [];
      extractedTexts := extractedTexts r; isActive := isActive r;
      ttsManager := ttsManager r; overlay := overlay r;
      border := border r |},
   length found).

(** [toggleImageSelection(event)] for a click on [img]. *)
Definition toggleImageSelection (img : Img) (r : ImageTextReader)
  : ImageTextReader :=
  if negb (isActive r) then r
  else
    let index := indexOf img (selectedImages r) in
    if (index =? -1)%Z then
      {| images := images r; selectedImages := push (selectedImages r) img;
         extractedTexts := extractedTexts r; isActive := isActive r;
         ttsManager := ttsManager r; overlay := overlay r;
         border := set_border (node img) true (border r) |}
    else
      {| images := images r;
         selectedImages := splice1 (selectedImages r) index;
         extractedTexts := extractedTexts r; isActive := isActive r;
         ttsManager := ttsManager r; overlay := overlay r;
         border := set_border (node img) false (border r) |}.

(** What a read request leads to: an alert, or the message [extractText]
    with the image data sent to the background script. *)
Inductive request :=
| alert (message : jsstring)
| extractText (imageDataArray : list jsstring).

(** [processImages(imagesToProcess)] up to the message it sends: the
    overlay is there and says that images are being processed. *)
Definition processImages (imagesToProcess : list Img) (r : ImageTextReader)
  : ImageTextReader * request :=
  ({| images := images r; selectedImages := selectedImages r;
      extractedTexts := extractedTexts r; isActive := isActive r;
      ttsManager := ttsManager r;
      overlay := Some (str "Processing images...");
      border := border r |},
   extractText (map src imagesToProcess)).

Definition activate (r : ImageTextReader) : ImageTextReader :=
  {| images := images r; selectedImages := selectedImages r;
     extractedTexts := extractedTexts r; isActive := true;
     ttsManager := ttsManager r; overlay := overlay r; border := border r |}.

(** [readAllImages()] and [readSelectedImages()] *)
Definition readAllImages (r : ImageTextReader) : ImageTextReader * request :=
  let r := activate r in
  processImages (images r) r.

Definition readSelectedImages (r : ImageTextReader)
  : ImageTextReader * request :=
  let r := activate r in
  match selectedImages r with
  | [] =>
      (r, alert (str "No images selected. Please click on images to select them."))
  | _ :: _ => processImages (selectedImages r) r
  end.

(** [stopReading()] *)
Definition stopReading (r : ImageTextReader) : ImageTextReader :=
  {| images := images r; selectedImages := [];
     extractedTexts := extractedTexts r; isActive := false;
     ttsManager := TTS.stop (ttsManager r); overlay := None;
     border :=
       fold_left (fun b img => set_border (node img) false b)
         (selectedImages r) (border r) |}.

(** [response.texts.filter((text) => text && text.trim() !== "")], what
    [processImages] keeps of the answer; [None] is a missing text. *)
Definition worth_reading (text : option jsstring) : bool :=
  match text with
  | Some (c :: s) =>
      match trim (c :: s) with
      | [] => false
      | _ :: _ => true
      end
  | Some [] => false
  | None => false
  end.

Fixpoint texts_worth_reading (texts : list (option jsstring)) : list jsstring :=
  match texts with
  | [] => []
  | text :: rest =>
      if worth_reading text then
        match text with
        | Some s => s :: texts_worth_reading rest
        | None => texts_worth_reading rest
        end
      else texts_worth_reading rest
  end.

(** The selection holds no element twice, and an image has the selection
    border exactly when it is selected. *)
Definition selection_distinct (r : ImageTextReader) : Prop :=
  NoDup (map node (selectedImages r)).

Definition borders_show_selection (r : ImageTextReader) : Prop :=
  forall n, border r n = true <-> In n (map node (selectedImages r)).

(** A page with a banner and an icon, and the reader after it has scanned
    the page and a read request has made it active. *)
Definition banner : Img :=
  {| node := 1; src := str "https://example.org/banner.png";
     width := 300; height := 120 |}.

Definition icon : Img :=
  {| node := 2; src := str "https://example.org/icon.png";
     width := 16; height := 16 |}.

Definition active_reader : ImageTextReader :=
  activate (fst (scanImages [banner; icon] (constructed []))).

(** The reader after the banner was selected and the page scanned again:
    the selection is empty, the banner still has its border. *)
Definition rescanned_reader : ImageTextReader :=
  fst (scanImages [banner; icon] (toggleImageSelection banner active_reader)).

End Reader.

(* ================================================================== *)
(** * ImageTextReader: reading the texts one after the other *)
(* ================================================================== *)

Module Playback.
Import JS.

(** The two observers the reader gives to [speak], as they appear in the
    trace of the controller: [this.highlightWord], and the closure that
    moves on to the next text. *)
Definition highlightWord : nat := 0.
Definition advance : nat := 1.

(** A callback that is registered and has not run yet: the one
    [readCurrentText] gives to [chrome.storage.sync.get], which has [text]
    in its closure, and the one its [onEnd] gives to [setTimeout]. *)
Inductive task :=
| storage_get (text : jsstring)
| next_text_timer.

(** The reader with the index of the text it reads, the callbacks that are
    waiting, and the [extractedText] of every [addToHistory] message it has
    sent, oldest first. *)
Record t := {
  reader : Reader.ImageTextReader;
  currentTextIndex : nat;
  pending : list task;
  addToHistory : list jsstring
}.

Definition set_overlay (o : option jsstring) (r : Reader.ImageTextReader)
  : Reader.ImageTextReader :=
  {| Reader.images := Reader.images r;
     Reader.selectedImages := Reader.selectedImages r;
     Reader.extractedTexts := Reader.extractedTexts r;
     Reader.isActive := Reader.isActive r;
     Reader.ttsManager := Reader.ttsManager r;
     Reader.overlay := o;
     Reader.border := Reader.border r |}.

Definition set_ttsManager (w : TTS.world) (r : Reader.ImageTextReader)
  : Reader.ImageTextReader :=
  {| Reader.images := Reader.images r;
     Reader.selectedImages := Reader.selectedImages r;
     Reader.extractedTexts := Reader.extractedTexts r;
     Reader.isActive := Reader.isActive r;
     Reader.ttsManager := w;
     Reader.overlay := Reader.overlay r;
     Reader.border := Reader.border r |}.

Definition set_extractedTexts (texts : list jsstring)
    (r : Reader.ImageTextReader) : Reader.ImageTextReader :=
  {| Reader.images := Reader.images r;
     Reader.selectedImages := Reader.selectedImages r;
     Reader.extractedTexts := texts;
     Reader.isActive := Reader.isActive r;
     Reader.ttsManager := Reader.ttsManager r;
     Reader.overlay := Reader.overlay r;
     Reader.border := Reader.border r |}.

(** [updateOverlayText(text)]: nothing without an overlay. *)
Definition updateOverlayText (text : jsstring) (r : Reader.ImageTextReader)
  : Reader.ImageTextReader :=
  match Reader.overlay r with
  | Some _ => set_overlay (Some text) r
  | None => r
  end.

(** [readCurrentText()] up to its return: the overlay shows the text, the
    storage callback is registered, and [saveToHistory(text)] has sent its
    message. *)
Definition readCurrentText (p : t) : t :=
  let texts := Reader.extractedTexts (reader p) in
  if length texts <=? currentTextIndex p then
    {| reader := updateOverlayText (str "Finished reading all texts.") (reader p);
       currentTextIndex := currentTextIndex p;
       pending := pending p;
       addToHistory := addToHistory p |}
  else
    match nth_error texts (currentTextIndex p) with
    | Some text =>
        {| reader := updateOverlayText text (reader p);
           currentTextIndex := currentTextIndex p;
           pending := pending p ++ [storage_get text];
           addToHistory := addToHistory p ++ [text] |}
    | None => p
    end.

(** The callback of [chrome.storage.sync.get] in [readCurrentText], run
    with the preferences [settings]. *)
Definition speak_text (settings : Storage.sync) (text : jsstring) (p : t) : t :=
  let options :=
    {| TTS.Options.rate := Some (Storage.getDefaultSpeed settings);
       TTS.Options.voiceName := Some (Storage.getDefaultVoice settings);
       TTS.Options.onWordChange := TTS.cb_function highlightWord;
       TTS.Options.onEnd := TTS.cb_function advance |} in
  {| reader :=
       set_ttsManager
         (TTS.speak text options (Reader.ttsManager (reader p))) (reader p);
     currentTextIndex := currentTextIndex p;
     pending := pending p;
     addToHistory := addToHistory p |}.

(** The [onEnd] closure: the index moves on and the timer is set. *)
Definition next_text (p : t) : t :=
  {| reader := reader p;
     currentTextIndex := S (currentTextIndex p);
     pending := pending p ++ [next_text_timer];
     addToHistory := addToHistory p |}.

(** [processImages] from the answer [{ texts }] of the background script
    on. *)
Definition on_texts (texts : list (option jsstring)) (p : t) : t :=
  let kept := Reader.texts_worth_reading texts in
  let r := set_extractedTexts kept (reader p) in
  match kept with
  | [] =>
      {| reader := updateOverlayText (str "No text found in the images.") r;
         currentTextIndex := currentTextIndex p;
         pending := pending p;
         addToHistory := addToHistory p |}
  | _ :: _ =>
      readCurrentText
        {| reader := r; currentTextIndex := 0; pending := pending p;
           addToHistory := addToHistory p |}
  end.

(** The oldest waiting callback of each kind, and the others. *)
Fixpoint take_storage_get (tasks : list task)
  : option (jsstring * list task) :=
  match tasks with
  | [] => None
  | storage_get text :: rest => Some (text, rest)
  | other :: rest =>
      match take_storage_get rest with
      | Some (text, rest') => Some (text, other :: rest')
      | None => None
      end
  end.

Fixpoint take_timer (tasks : list task) : option (list task) :=
  match tasks with
  | [] => None
  | next_text_timer :: rest => Some rest
  | other :: rest =>
      match take_timer rest with
      | Some rest' => Some (other :: rest')
      | None => None
      end
  end.

(** What happens to the reader from outside. *)
Inductive event :=
| storage_replies (settings : Storage.sync)
| engine_ends (u : nat)
| timer_fires
| user_stops.

Definition with_pending (tasks : list task) (p : t) : t :=
  {| reader := reader p; currentTextIndex := currentTextIndex p;
     pending := tasks; addToHistory := addToHistory p |}.

Definition handle (e : event) (p : t) : t :=
  match e with
  | storage_replies settings =>
      match take_storage_get (pending p) with
      | Some (text, rest) => speak_text settings text (with_pending rest p)
      | None => p
      end
  | engine_ends u =>
      let w := Reader.ttsManager (reader p) in
      if u <? TTS.created w then
        let p' :=
          {| reader := set_ttsManager (TTS.onend w) (reader p);
             currentTextIndex := currentTextIndex p;
             pending := pending p;
             addToHistory := addToHistory p |} in
        match TTS.onEnd (TTS.this w) with
        | TTS.cb_function g => if Nat.eqb g advance then next_text p' else p'
        | _ => p'
        end
      else p
  | timer_fires =>
      match take_timer (pending p) with
      | Some rest => readCurrentText (with_pending rest p)
      | None => p
      end
  | user_stops =>
      {| reader := Reader.stopReading (reader p);
         currentTextIndex := currentTextIndex p;
         pending := pending p;
         addToHistory := addToHistory p |}
  end.

Definition play (events : list event) (p : t) : t :=
  fold_left (fun p e => handle e p) events p.

(** The texts of the utterances submitted in a trace, in order. *)
Fixpoint spoken (trace : list TTS.effect) : list jsstring :=
  match trace with
  | [] => []
  | TTS.synth_speak u :: rest => TTS.Utterance.text u :: spoken rest
  | _ :: rest => spoken rest
  end.


(** A reader whose overlay is up, about to get the texts of two images. *)
Definition with_overlay : t :=
  {| reader :=
       fst (Reader.processImages (Reader.images Reader.active_reader)
              Reader.active_reader);
     currentTextIndex := 0; pending := []; addToHistory := [] |}.

Definition two_texts : list (option jsstring) :=
  [Some (str "Hello world"); None; Some (str "  "); Some (str "Bye")].

End Playback.

Import JS TTS.

(* ================================================================== *)
(** * Facts about the built-ins *)
(* ================================================================== *)

Section SplitFacts.

Lemma split_ws_nonempty (s : jsstring) : split_ws s <> [].
Proof.
  induction s as [|c rest IH]; simpl; [discriminate|].
  destruct (is_white_space c).
  - destruct rest as [|c' rest']; [discriminate|].
    destruct (is_white_space c'); [exact IH | discriminate].
  - destruct (split_ws rest); discriminate.
Qed.

Lemma split_ws_length_pos (s : jsstring) : 1 <= length (split_ws s).
Proof.
  pose proof (split_ws_nonempty s) as H.
  destruct (split_ws s); [contradiction | simpl; lia].
Qed.

(** A code unit that is not white space joins the first piece. *)
Lemma split_ws_length_letter (c : code_unit) (s : jsstring) :
  is_white_space c = false ->
  length (split_ws (c :: s)) = length (split_ws s).
Proof.
  intros Hc. simpl. rewrite Hc.
  pose proof (split_ws_nonempty s) as H.
  destruct (split_ws s); [contradiction | reflexivity].
Qed.

(** White space in front of more text: it starts a new run only when the
    next code unit is not white space. *)
Lemma split_ws_space_cons (c c' : code_unit) (rest : jsstring) :
  is_white_space c = true ->
  split_ws (c :: c' :: rest) =
    if is_white_space c' then split_ws (c' :: rest)
    else [] :: split_ws (c' :: rest).
Proof. intros Hc. simpl. rewrite Hc. reflexivity. Qed.

(** A string that starts with white space has an empty first piece and at
    least one more piece. *)
Lemma split_ws_length_space (c : code_unit) (s : jsstring) :
  is_white_space c = true ->
  2 <= length (split_ws (c :: s)).
Proof.
  revert c. induction s as [|c' rest IH]; intros c Hc.
  - simpl. rewrite Hc. simpl. lia.
  - rewrite (split_ws_space_cons c c' rest Hc).
    destruct (is_white_space c') eqn:Hc'.
    + apply IH, Hc'.
    + pose proof (split_ws_length_pos (c' :: rest)). cbn [length]. lia.
Qed.

(** Reading further into a string never loses a piece. *)
Lemma split_ws_length_app (s t : jsstring) :
  length (split_ws s) <= length (split_ws (s ++ t)).
Proof.
  induction s as [|c rest IH].
  - simpl. apply split_ws_length_pos.
  - destruct (is_white_space c) eqn:Hc.
    + destruct rest as [|c' rest'].
      * simpl app. simpl split_ws at 1. rewrite Hc. simpl length at 1.
        apply split_ws_length_space, Hc.
      * change ((c :: c' :: rest') ++ t) with (c :: c' :: (rest' ++ t)).
        rewrite !split_ws_space_cons by exact Hc.
        change (c' :: (rest' ++ t)) with ((c' :: rest') ++ t).
        destruct (is_white_space c'); cbn [length]; lia.
    + change ((c :: rest) ++ t) with (c :: (rest ++ t)).
      rewrite !split_ws_length_letter by exact Hc. exact IH.
Qed.

Lemma split_ws_length_firstn (n m : nat) (s : jsstring) :
  n <= m ->
  length (split_ws (firstn n s)) <= length (split_ws (firstn m s)).
Proof.
  intros Hnm.
  rewrite <- (firstn_skipn n (firstn m s)).
  rewrite firstn_firstn, (Nat.min_l n m Hnm).
  apply split_ws_length_app.
Qed.

Lemma split_ws_length_prefix (n : nat) (s : jsstring) :
  length (split_ws (firstn n s)) <= length (split_ws s).
Proof.
  rewrite <- (firstn_skipn n s) at 2. apply split_ws_length_app.
Qed.

(** The step-by-step split and [split_ws] give the same pieces. *)
Lemma split_scan_spec (s : jsstring) :
  (forall pending, split_scan pending s = onto_first pending (split_ws s))
  /\ (forall c, is_white_space c = true ->
                [] :: skip_run s = split_ws (c :: s)).
Proof.
  induction s as [|c' rest [IHscan IHskip]]; split.
  - intros pending. simpl. now rewrite app_nil_r.
  - intros c Hc. simpl. now rewrite Hc.
  - intros pending. simpl split_scan.
    destruct (is_white_space c') eqn:Hc'.
    + rewrite <- (IHskip c' Hc'). unfold onto_first.
      now rewrite app_nil_r.
    + rewrite IHscan. simpl split_ws. rewrite Hc'.
      pose proof (split_ws_nonempty rest) as Hne.
      destruct (split_ws rest) as [|piece pieces]; [contradiction|].
      simpl. now rewrite <- app_assoc.
  - intros c Hc. rewrite (split_ws_space_cons c c' rest Hc).
    simpl skip_run. destruct (is_white_space c') eqn:Hc'.
    + apply IHskip, Hc'.
    + f_equal. rewrite IHscan. simpl split_ws. rewrite Hc'.
      pose proof (split_ws_nonempty rest) as Hne.
      destruct (split_ws rest) as [|piece pieces]; [contradiction|].
      reflexivity.
Qed.

Lemma split_by_steps_correct (s : jsstring) : split_by_steps s = split_ws s.
Proof.
  unfold split_by_steps. rewrite (proj1 (split_scan_spec s)).
  pose proof (split_ws_nonempty s) as Hne.
  destruct (split_ws s); [contradiction | reflexivity].
Qed.

End SplitFacts.

(* ================================================================== *)
(** * Facts about the controller *)
(* ================================================================== *)

Section ControllerFacts.

Lemma eqb_eq (a b : jsstring) : eqb a b = true <-> a = b.
Proof.
  revert b. induction a as [|x a IH]; intros [|y b]; simpl;
    try (split; [discriminate | discriminate]); [tauto|].
  rewrite andb_true_iff, N.eqb_eq, IH.
  split; [intros [-> ->]; reflexivity | intros H; inversion H; auto].
Qed.

Lemma substring0_firstn (s : jsstring) (finish : Z) :
  exists n, substring0 s finish = firstn n s.
Proof. unfold substring0. eauto. Qed.

Lemma word_index_at_mono (text : jsstring) (a b : Z) :
  (a <= b)%Z -> (word_index_at text a <= word_index_at text b)%Z.
Proof.
  intros Hab. unfold word_index_at, substring0.
  apply Z.sub_le_mono_r, Nat2Z.inj_le, split_ws_length_firstn.
  apply Z2Nat.inj_le; lia.
Qed.

Lemma word_index_at_range (text : jsstring) (offset : Z) :
  (0 <= word_index_at text offset < Z.of_nat (length (split_ws text)))%Z.
Proof.
  unfold word_index_at. destruct (substring0_firstn text offset) as [n ->].
  pose proof (split_ws_length_pos (firstn n text)).
  pose proof (split_ws_length_prefix n text). lia.
Qed.

Lemma index_defined {A : Type} (a : list A) (i : Z) :
  (0 <= i < Z.of_nat (length a))%Z -> exists x, index a i = Some x.
Proof.
  intros Hi. unfold index.
  destruct (i <? 0)%Z eqn:Hneg; [apply Z.ltb_lt in Hneg; lia|].
  destruct (nth_error a (Z.to_nat i)) as [x|] eqn:Hnth; [eauto|].
  apply nth_error_None in Hnth. lia.
Qed.

(** What the boundary handler does on a word event. *)
Lemma onboundary_word (offset : Z) (w : world) :
  let i := word_index_at (currentText (this w)) offset in
  let word := index (words (this w)) i in
  let w' := onboundary (word_event offset) w in
  wordIndex (this w') = i
  /\ currentWord (this w') = word
  /\ currentText (this w') = currentText (this w)
  /\ words (this w') = words (this w)
  /\ trace w' = trace w ++
       match onWordChange (this w) with
       | cb_function f => [call_onWordChange f word i]
       | _ => []
       end.
Proof.
  destruct w as [m vs n t]. unfold onboundary, word_event, word_index_at.
  simpl. destruct (onWordChange m); simpl; rewrite ?app_nil_r; auto.
Qed.

(** The boundary handler leaves alone everything but [wordIndex] and
    [currentWord]. *)
Lemma onboundary_frame (event : Event.t) (w : world) :
  let w' := onboundary event w in
  currentText (this w') = currentText (this w)
  /\ words (this w') = words (this w)
  /\ utterance (this w') = utterance (this w)
  /\ isPlaying (this w') = isPlaying (this w)
  /\ onWordChange (this w') = onWordChange (this w)
  /\ onEnd (this w') = onEnd (this w)
  /\ created w' = created w
  /\ end_calls (trace w') = end_calls (trace w).
Proof.
  destruct w as [m vs n t]. unfold onboundary.
  destruct (eqb (Event.name event) (str "word")); simpl; [|tauto].
  destruct (onWordChange m); simpl; repeat split; auto.
  unfold end_calls. rewrite filter_app, length_app. simpl. lia.
Qed.

Lemma onboundary_index (event : Event.t) (w : world) :
  wordIndex (this (onboundary event w)) =
    if is_word_event event
    then word_index_at (currentText (this w)) (Event.charIndex event)
    else wordIndex (this w).
Proof.
  destruct w as [m vs n t]. unfold onboundary, is_word_event, word_index_at.
  destruct (eqb (Event.name event) (str "word")); simpl; [|reflexivity].
  destruct (onWordChange m); reflexivity.
Qed.

Lemma speak_state (text : jsstring) (options : Options.t) (w : world) :
  let w' := speak text options w in
  currentText (this w') = text
  /\ words (this w') = split_ws text
  /\ wordIndex (this w') = 0%Z
  /\ isPlaying (this w') = true
  /\ onWordChange (this w') = Options.onWordChange options
  /\ onEnd (this w') = Options.onEnd options
  /\ created w' = S (created w)
  /\ end_calls (trace w') = end_calls (trace w).
Proof.
  destruct w as [m vs n t]. simpl. repeat split; auto.
  unfold end_calls. rewrite !filter_app, !length_app. simpl. lia.
Qed.

End ControllerFacts.

Section Sessions.

Lemma end_calls_app (t t' : list effect) :
  end_calls (t ++ t') = end_calls t + end_calls t'.
Proof. unfold end_calls. now rewrite filter_app, length_app. Qed.

Lemma end_calls_one (e : effect) :
  end_calls [e] = match e with call_onEnd _ => 1 | _ => 0 end.
Proof. destruct e; reflexivity. Qed.

Ltac count_end_calls :=
  rewrite ?end_calls_app, ?end_calls_one; simpl; lia.

Lemma same_session_refl (w : world) : same_session w w.
Proof. unfold same_session. tauto. Qed.

Lemma same_session_trans (w1 w2 w3 : world) :
  same_session w1 w2 -> same_session w2 w3 -> same_session w1 w3.
Proof.
  unfold same_session.
  intros (A1 & A2 & A3 & A4 & A5 & A6 & A7) (B1 & B2 & B3 & B4 & B5 & B6 & B7).
  repeat split; congruence.
Qed.

Lemma pause_same_session (w : world) : same_session w (pause w).
Proof.
  destruct w as [m vs n t]. unfold pause, same_session. simpl.
  destruct (isPlaying m); simpl; repeat split; auto.
  count_end_calls.
Qed.

Lemma resume_same_session (w : world) : same_session w (resume w).
Proof.
  destruct w as [m vs n t]. unfold resume, same_session. simpl.
  destruct (isPlaying m), (utterance m) eqn:Hu; simpl; repeat split; auto.
  count_end_calls.
Qed.

Lemma onboundary_same_session (event : Event.t) (w : world) :
  same_session w (onboundary event w).
Proof.
  pose proof (onboundary_frame event w) as H. cbv zeta in H.
  unfold same_session. tauto.
Qed.

Lemma exec_keeps_session (s : step) (w : world) :
  keeps_session s = true -> same_session w (exec s w).
Proof.
  destruct s; simpl; try discriminate; intros _; unfold exec; simpl.
  - apply pause_same_session.
  - apply resume_same_session.
  - unfold togglePlayPause. destruct (isPlaying (this w));
      [apply pause_same_session | apply resume_same_session].
  - destruct (u <? created w);
      [apply onboundary_same_session | apply same_session_refl].
Qed.

Lemma run_cons (s : step) (steps : list step) (w : world) :
  run (s :: steps) w = run steps (exec s w).
Proof. reflexivity. Qed.

Lemma run_keeps_session (steps : list step) :
  forall w, forallb keeps_session steps = true -> same_session w (run steps w).
Proof.
  induction steps as [|s steps IH]; intros w Hall.
  - apply same_session_refl.
  - simpl in Hall. apply andb_true_iff in Hall as [Hs Hrest].
    rewrite run_cons.
    eapply same_session_trans; [apply exec_keeps_session, Hs | apply IH, Hrest].
Qed.

Lemma exec_fire_boundary (u : nat) (event : Event.t) (w : world) :
  u < created w -> exec (fire_boundary u event) w = onboundary event w.
Proof.
  intros Hown. apply Nat.ltb_lt in Hown. unfold exec. simpl.
  now rewrite Hown.
Qed.

Lemma exec_fire_end (u : nat) (w : world) :
  u < created w -> exec (fire_end u) w = onend w.
Proof.
  intros Hown. apply Nat.ltb_lt in Hown. unfold exec. simpl.
  now rewrite Hown.
Qed.

Lemma stop_end_calls (w : world) :
  end_calls (trace (stop w)) = end_calls (trace w).
Proof. destruct w. simpl. count_end_calls. Qed.

(** [changeRate] on a live session: [stop] has cleared [this.utterance] by
    the time the arguments of the new [speak] are evaluated. *)
Lemma changeRate_live (rate : Q) (w : world) :
  utterance (this w) <> None ->
  changeRate rate w = threw TypeError (stop w).
Proof.
  intros Hlive. unfold changeRate.
  destruct (utterance (this w)); [|contradiction].
  destruct w; reflexivity.
Qed.

Lemma changeRate_idle (rate : Q) (w : world) :
  utterance (this w) = None -> changeRate rate w = returned w.
Proof. intros Hidle. unfold changeRate. now rewrite Hidle. Qed.

Lemma changeRate_end_calls (rate : Q) (w : world) :
  end_calls (trace (world_of (changeRate rate w))) = end_calls (trace w).
Proof.
  destruct (utterance (this w)) eqn:Hu.
  - rewrite changeRate_live by congruence. apply stop_end_calls.
  - now rewrite changeRate_idle.
Qed.

Lemma onend_trace (w : world) :
  trace (onend w) = trace w ++
    match onEnd (this w) with
    | cb_function f => [call_onEnd f]
    | _ => []
    end
  /\ isPlaying (this (onend w)) = false.
Proof.
  destruct w as [m vs n t]. unfold onend. simpl.
  destruct (onEnd m); simpl; rewrite ?app_nil_r; auto.
Qed.

End Sessions.

(* ================================================================== *)
(** * Word tracking *)
(* ================================================================== *)

Section WordTracking.

Lemma wordIndex_history_head (events : list Event.t) (w : world) :
  exists later, wordIndex_history events w = wordIndex (this w) :: later.
Proof. destruct events; simpl; eauto. Qed.

(** While the text stays [text], a word index that is below the index of
    every offset still to come stays below what follows. *)
Lemma wordIndex_history_sorted (text : jsstring) (events : list Event.t) :
  forall w,
    currentText (this w) = text ->
    StronglySorted Z.le (map Event.charIndex (filter is_word_event events)) ->
    Forall (fun offset => (wordIndex (this w) <= word_index_at text offset)%Z)
           (map Event.charIndex (filter is_word_event events)) ->
    Sorted Z.le (wordIndex_history events w).
Proof.
  induction events as [|event rest IH]; intros w Htext Hsorted Hlow.
  - simpl. repeat constructor.
  - simpl wordIndex_history. simpl filter in Hsorted, Hlow.
    pose proof (onboundary_index event w) as Hidx.
    pose proof (onboundary_frame event w) as Hframe. cbv zeta in Hframe.
    destruct Hframe as (Hsame & _).
    destruct (is_word_event event) eqn:Hword.
    + simpl map in Hsorted, Hlow.
      apply StronglySorted_inv in Hsorted as [Hrest Hafter].
      apply Forall_inv in Hlow as Hnow.
      constructor.
      * apply IH; [congruence | exact Hrest |].
        rewrite Hidx, Htext.
        eapply Forall_impl; [|exact Hafter].
        intros later Hle. apply word_index_at_mono, Hle.
      * destruct (wordIndex_history_head rest (onboundary event w))
          as [later ->].
        constructor. rewrite Hidx, Htext. exact Hnow.
    + constructor.
      * apply IH; [congruence | exact Hsorted |]. now rewrite Hidx.
      * destruct (wordIndex_history_head rest (onboundary event w))
          as [later ->].
        constructor. rewrite Hidx. lia.
Qed.

(** C3. Within one session, whenever the word-boundary events arrive with
    non-decreasing character offsets, the values the boundary handler
    gives [wordIndex], from the 0 that [speak] sets onwards, are
    non-decreasing.  Boundary events of another kind change nothing and
    their offsets do not matter. *)
Theorem wordIndex_monotonic
    (text : jsstring) (options : Options.t) (w : world)
    (events : list Event.t) :
  Sorted Z.le (map Event.charIndex (filter is_word_event events)) ->
  Sorted Z.le (wordIndex_history events (speak text options w)).
Proof.
  intros Hsorted.
  destruct (speak_state text options w) as (Htext & _ & Hzero & _).
  apply (wordIndex_history_sorted text).
  - exact Htext.
  - apply Sorted_StronglySorted; [|exact Hsorted].
    intros a b c Hab Hbc. lia.
  - rewrite Hzero. apply Forall_forall. intros offset _.
    apply word_index_at_range.
Qed.

Lemma wordIndex_monotonic_witness :
  Sorted Z.le
    (map Event.charIndex
       (filter is_word_event [word_event 4; word_event 10; word_event 16]))
  /\ Sorted Z.le
       (wordIndex_history [word_event 4; word_event 10; word_event 16]
          (speak (str "The quick brown fox") (observed_by 1 2) (fresh []))).
Proof.
  assert (Hoffsets :
    Sorted Z.le
      (map Event.charIndex
         (filter is_word_event [word_event 4; word_event 10; word_event 16]))).
  { simpl. repeat constructor; lia. }
  split; [exact Hoffsets|].
  apply (wordIndex_monotonic (str "The quick brown fox") (observed_by 1 2)
           (fresh []) [word_event 4; word_event 10; word_event 16] Hoffsets).
Defined.

Lemma run_same_text (text : jsstring) (options : Options.t) (w : world)
      (steps : list step) :
  forallb keeps_session steps = true ->
  let w1 := run steps (speak text options w) in
  currentText (this w1) = text
  /\ words (this w1) = split_ws text
  /\ onWordChange (this w1) = Options.onWordChange options
  /\ onEnd (this w1) = Options.onEnd options
  /\ created w1 = S (created w)
  /\ end_calls (trace w1) = end_calls (trace w).
Proof.
  intros Hall.
  pose proof (run_keeps_session steps (speak text options w) Hall) as Hrun.
  destruct (speak_state text options w)
    as (S1 & S2 & _ & _ & S5 & S6 & S7 & S8).
  destruct Hrun as (_ & R2 & R3 & R4 & R5 & R6 & R7).
  cbv zeta. repeat split; congruence.
Qed.

(** C4. [speak] leaves [wordIndex] at 0.  After any word-boundary event of
    the session whose offset is at most the length of the text, the
    [wordIndex] the handler computed, the number of pieces of
    [text[0:offset]] less one, is an index into [words], and the word the
    handler stores and passes to [onWordChange] is that element of [words],
    not [undefined]. *)
Theorem boundary_word_defined
    (text : jsstring) (options : Options.t) (w : world)
    (steps : list step) (offset : Z) :
  forallb keeps_session steps = true ->
  (offset <= Z.of_nat (length text))%Z ->
  let w0 := speak text options w in
  let w1 := run steps w0 in
  let w2 := onboundary (word_event offset) w1 in
  wordIndex (this w0) = 0%Z
  /\ wordIndex (this w2) =
       (Z.of_nat (length (split_ws (substring0 text offset))) - 1)%Z
  /\ (0 <= wordIndex (this w2) < Z.of_nat (length (words (this w2))))%Z
  /\ exists word,
       index (words (this w2)) (wordIndex (this w2)) = Some word
       /\ currentWord (this w2) = Some word
       /\ forall f, Options.onWordChange options = cb_function f ->
            trace w2 =
              trace w1 ++ [call_onWordChange f (Some word) (wordIndex (this w2))].
Proof.
  intros Hall _. cbv zeta.
  destruct (speak_state text options w) as (_ & _ & Hzero & _).
  destruct (run_same_text text options w steps Hall)
    as (Htext & Hwords & Hobs & _).
  set (w1 := run steps (speak text options w)) in *.
  pose proof (onboundary_word offset w1) as Hhandler. cbv zeta in Hhandler.
  rewrite Htext, Hwords, Hobs in Hhandler.
  destruct Hhandler as (Hi & Hword & _ & Hwords' & Htrace).
  pose proof (word_index_at_range text offset) as Hrange.
  destruct (index_defined (split_ws text) (word_index_at text offset) Hrange)
    as [word Hdef].
  rewrite Hdef in Hword, Htrace.
  split; [exact Hzero|]. split; [exact Hi|].
  rewrite Hwords', Hi. split; [exact Hrange|].
  exists word. split; [exact Hdef|]. split; [exact Hword|].
  intros f Hf. rewrite Htrace, Hf. reflexivity.
Qed.

Lemma boundary_word_defined_witness :
  forallb keeps_session [fire_boundary 0 (word_event 4); call_pause] = true
  /\ (16 <= Z.of_nat (length (str "The quick brown fox")))%Z
  /\ exists word,
       index
         (words (this (onboundary (word_event 16)
            (run [fire_boundary 0 (word_event 4); call_pause]
               (speak (str "The quick brown fox") (observed_by 1 2)
                  (fresh []))))))
         (wordIndex (this (onboundary (word_event 16)
            (run [fire_boundary 0 (word_event 4); call_pause]
               (speak (str "The quick brown fox") (observed_by 1 2)
                  (fresh []))))))
       = Some word.
Proof.
  assert (Hsteps :
    forallb keeps_session [fire_boundary 0 (word_event 4); call_pause] = true)
    by reflexivity.
  assert (Hoffset : (16 <= Z.of_nat (length (str "The quick brown fox")))%Z)
    by (vm_compute; discriminate).
  split; [exact Hsteps|]. split; [exact Hoffset|].
  destruct (boundary_word_defined (str "The quick brown fox")
              (observed_by 1 2) (fresh [])
              [fire_boundary 0 (word_event 4); call_pause] 16 Hsteps Hoffset)
    as (_ & _ & _ & word & Hword & _).
  exists word. exact Hword.
Defined.

End WordTracking.

(* ================================================================== *)
(** * Playback control *)
(* ================================================================== *)

Section PlaybackControl.

(** C5. [stop()] never throws; after it the text is empty, the words are
    empty, the word index is 0 and nothing is playing; a second [stop()]
    leaves the manager exactly as the first one left it, and so does a
    [stop()] on a manager that has no session. *)
Theorem stop_idempotent (w : world) :
  perform call_stop w = returned (stop w)
  /\ perform call_stop (stop w) = returned (stop (stop w))
  /\ currentText (this (stop w)) = []
  /\ words (this (stop w)) = []
  /\ wordIndex (this (stop w)) = 0%Z
  /\ isPlaying (this (stop w)) = false
  /\ utterance (this (stop w)) = None
  /\ this (stop (stop w)) = this (stop w)
  /\ this (stop (fresh (voices w))) = this (fresh (voices w)).
Proof. destruct w as [m vs n t]. repeat split. Qed.

(** A manager without a session that was reached by [stop] or by the
    constructor is a fixed point of [stop]. *)
Lemma stop_without_session (w : world) :
  utterance (this w) = None ->
  currentText (this w) = [] ->
  words (this w) = [] ->
  wordIndex (this w) = 0%Z ->
  isPlaying (this w) = false ->
  this (stop w) = this w.
Proof.
  destruct w as [[u text playing word i ws f g] vs n t]. simpl.
  intros -> -> -> -> ->. reflexivity.
Qed.

(** C9. [pause()] followed by [resume()] leaves [wordIndex],
    [currentText] and [words] as they were, and the utterance, the current
    word and the observers too; the only commands sent to the engine are
    pause and resume, and no observer is invoked.  For a session that was
    playing, the whole manager is as before. *)
Theorem pause_resume_keeps_progress (w : world) :
  let w' := resume (pause w) in
  wordIndex (this w') = wordIndex (this w)
  /\ currentText (this w') = currentText (this w)
  /\ words (this w') = words (this w)
  /\ utterance (this w') = utterance (this w)
  /\ currentWord (this w') = currentWord (this w)
  /\ onWordChange (this w') = onWordChange (this w)
  /\ onEnd (this w') = onEnd (this w)
  /\ (exists commands,
        trace w' = trace w ++ commands
        /\ Forall (fun e => e = synth_pause \/ e = synth_resume) commands)
  /\ (isPlaying (this w) = true -> utterance (this w) <> None ->
      this w' = this w /\ trace w' = trace w ++ [synth_pause; synth_resume]).
Proof.
  destruct w as [[u text playing word i ws f g] vs n t].
  unfold pause, resume. simpl.
  destruct playing, u as [u|]; simpl; repeat split; auto;
    try discriminate; try congruence.
  - exists [synth_pause; synth_resume]. rewrite <- app_assoc. auto.
  - now rewrite <- app_assoc.
  - exists [synth_pause]. auto.
  - exists [synth_resume]. auto.
  - exists []. now rewrite app_nil_r.
Qed.

Lemma pause_resume_keeps_progress_witness :
  isPlaying (this at_second_word) = true
  /\ utterance (this at_second_word) <> None
  /\ wordIndex (this (resume (pause at_second_word))) = 1%Z
  /\ this (resume (pause at_second_word)) = this at_second_word.
Proof.
  assert (Hplaying : isPlaying (this at_second_word) = true) by reflexivity.
  assert (Hlive : utterance (this at_second_word) <> None) by discriminate.
  destruct (pause_resume_keeps_progress at_second_word)
    as (Hindex & _ & _ & _ & _ & _ & _ & _ & Hwhole).
  destruct (Hwhole Hplaying Hlive) as [Hthis _].
  split; [exact Hplaying|]. split; [exact Hlive|]. split; [|exact Hthis].
  rewrite Hindex. reflexivity.
Defined.

Lemma find_none_when_unnamed (n : jsstring) (vs : list Voice.t) :
  (forall v, In v vs -> Voice.name v <> n) ->
  find (fun v => eqb (Voice.name v) n) vs = None.
Proof.
  intros Hmiss. induction vs as [|v vs IH]; [reflexivity|]. simpl.
  destruct (eqb (Voice.name v) n) eqn:Hname.
  - apply eqb_eq in Hname. exfalso. apply (Hmiss v); simpl; auto.
  - apply IH. intros v' Hin. apply Hmiss. simpl. auto.
Qed.

(** C7. When [options.voiceName] names no voice of the engine, [speak]
    does not throw: it cancels, then submits one utterance that carries the
    text and no voice, and the session is live and playing. *)
Theorem speak_unknown_voice
    (text : jsstring) (options : Options.t) (w : world) (n : jsstring) :
  Options.voiceName options = Some n ->
  (forall v, In v (voices w) -> Voice.name v <> n) ->
  exists u,
    perform (call_speak text options) w = returned (speak text options w)
    /\ trace (speak text options w) = trace w ++ [synth_cancel; synth_speak u]
    /\ Utterance.voice u = None
    /\ Utterance.text u = text
    /\ utterance (this (speak text options w)) = Some u
    /\ isPlaying (this (speak text options w)) = true.
Proof.
  intros Hname Hmiss.
  destruct w as [m vs k t]. simpl in Hmiss.
  assert (Hvoice : resolve_voice (Some n) vs = None).
  { destruct n as [|c n']; [reflexivity|]. simpl.
    apply find_none_when_unnamed, Hmiss. }
  exists {| Utterance.id := k;
            Utterance.text := text;
            Utterance.rate := rate_or_default (Options.rate options);
            Utterance.voice := None |}.
  split; [reflexivity|].
  unfold speak. simpl. rewrite Hname, Hvoice. simpl.
  rewrite <- app_assoc. repeat split.
Qed.

End PlaybackControl.

Section Scenarios.

Lemma speak_unknown_voice_witness :
  Options.voiceName unknown_voice_options = Some (str "nonexistent-voice")
  /\ (forall v, In v (voices one_voice_engine) ->
                Voice.name v <> str "nonexistent-voice")
  /\ exists u,
       trace (speak (str "Hello world") unknown_voice_options one_voice_engine)
         = [synth_cancel; synth_speak u]
       /\ Utterance.voice u = None.
Proof.
  assert (Hname : Options.voiceName unknown_voice_options
                  = Some (str "nonexistent-voice")) by reflexivity.
  assert (Hmiss : forall v, In v (voices one_voice_engine) ->
                            Voice.name v <> str "nonexistent-voice").
  { intros v [<- | []]. vm_compute. discriminate. }
  split; [exact Hname|]. split; [exact Hmiss|].
  destruct (speak_unknown_voice (str "Hello world") unknown_voice_options
              one_voice_engine (str "nonexistent-voice") Hname Hmiss)
    as (u & _ & Htrace & Hvoice & _).
  exists u. split; [exact Htrace | exact Hvoice].
Defined.

(** C6. After [speak("The quick brown fox", {rate: 1.0})] with observers
    [f] and [g]: the boundary event at offset 4 invokes
    [onWordChange("quick", 1)], the one at offset 16 invokes
    [onWordChange("fox", 3)], and the completion event invokes [onEnd()],
    once in all, after which [isCurrentlyPlaying()] is false. *)
Theorem scenario_quick_brown_fox (w : world) (f g : nat) :
  let options :=
    {| Options.rate := Some 1%Q; Options.voiceName := None;
       Options.onWordChange := cb_function f;
       Options.onEnd := cb_function g |} in
  let u := created w in
  let w0 := speak (str "The quick brown fox") options w in
  let w1 := exec (fire_boundary u (word_event 4)) w0 in
  let w2 := exec (fire_boundary u (word_event 16)) w1 in
  let w3 := exec (fire_end u) w2 in
  trace w1 = trace w0 ++ [call_onWordChange f (Some (str "quick")) 1]
  /\ trace w2 = trace w1 ++ [call_onWordChange f (Some (str "fox")) 3]
  /\ trace w3 = trace w2 ++ [call_onEnd g]
  /\ end_calls (trace w3) = end_calls (trace w) + 1
  /\ isCurrentlyPlaying w3 = false.
Proof.
  cbv zeta.
  set (text := str "The quick brown fox").
  set (options := {| Options.rate := Some 1%Q; Options.voiceName := None;
                     Options.onWordChange := cb_function f;
                     Options.onEnd := cb_function g |}).
  set (w0 := speak text options w).
  destruct (speak_state text options w)
    as (Htext & Hwords & _ & _ & Hf & Hg & Hcreated & Hcalls).
  fold w0 in Htext, Hwords, Hf, Hg, Hcreated, Hcalls.
  assert (Hown0 : created w < created w0) by lia.
  rewrite (exec_fire_boundary _ _ _ Hown0).
  set (w1 := onboundary (word_event 4) w0).
  pose proof (onboundary_word 4 w0) as H1. cbv zeta in H1. fold w1 in H1.
  rewrite Htext, Hwords, Hf in H1.
  destruct H1 as (_ & _ & Htext1 & Hwords1 & Htrace1).
  destruct (onboundary_frame (word_event 4) w0)
    as (_ & _ & _ & _ & Hf1 & Hg1 & Hcreated1 & Hcalls1).
  fold w1 in Hf1, Hg1, Hcreated1, Hcalls1.
  assert (Hown1 : created w < created w1) by lia.
  rewrite (exec_fire_boundary _ _ _ Hown1).
  set (w2 := onboundary (word_event 16) w1).
  pose proof (onboundary_word 16 w1) as H2. cbv zeta in H2. fold w2 in H2.
  rewrite Htext1, Hwords1, Hf1, Hf in H2.
  destruct H2 as (_ & _ & _ & _ & Htrace2).
  destruct (onboundary_frame (word_event 16) w1)
    as (_ & _ & _ & _ & _ & Hg2 & Hcreated2 & Hcalls2).
  fold w2 in Hg2, Hcreated2, Hcalls2.
  assert (Hown2 : created w < created w2) by lia.
  rewrite (exec_fire_end _ _ Hown2).
  destruct (onend_trace w2) as (Htrace3 & Hplaying3).
  rewrite Hg2, Hg1, Hg in Htrace3.
  change (trace (onend w2) = trace w2 ++ [call_onEnd g]) in Htrace3.
  split; [exact Htrace1|]. split; [exact Htrace2|]. split; [exact Htrace3|].
  split; [|exact Hplaying3].
  rewrite Htrace3, end_calls_app, end_calls_one. lia.
Qed.

End Scenarios.

(* ================================================================== *)
(** * Degenerate text *)
(* ================================================================== *)

Section DegenerateText.

Lemma split_ws_all_space (s : jsstring) :
  forallb is_white_space s = true ->
  s <> [] ->
  split_ws s = [[]; []].
Proof.
  induction s as [|c rest IH]; intros Hall Hne; [contradiction|].
  simpl in Hall. apply andb_true_iff in Hall as [Hc Hrest].
  destruct rest as [|c' rest'].
  - simpl. now rewrite Hc.
  - rewrite (split_ws_space_cons c c' rest' Hc).
    simpl in Hrest. apply andb_true_iff in Hrest as [Hc' Hrest'].
    rewrite Hc'. apply IH; [|discriminate].
    simpl. now rewrite Hc', Hrest'.
Qed.

Lemma forallb_firstn {A : Type} (p : A -> bool) (n : nat) (l : list A) :
  forallb p l = true -> forallb p (firstn n l) = true.
Proof.
  revert n. induction l as [|x l IH]; intros [|n] Hall; try reflexivity.
  simpl in *. apply andb_true_iff in Hall as [Hx Hl].
  now rewrite Hx, IH.
Qed.

(** C8, as the code has it.  White-space-only text is not rejected.  The
    empty text gives the one word [""]; a non-empty text of white space
    gives the two words [""] and [""], none of them the text itself.
    [speak] leaves [wordIndex] at 0; a word-boundary event keeps it at 0
    when the text is empty or the offset is not positive, and makes it 1
    otherwise. *)
Theorem speak_whitespace_only
    (text : jsstring) (options : Options.t) (w : world) :
  forallb is_white_space text = true ->
  let w' := speak text options w in
  perform (call_speak text options) w = returned w'
  /\ words (this w') = match text with [] => [[]] | _ :: _ => [[]; []] end
  /\ wordIndex (this w') = 0%Z
  /\ forall offset,
       wordIndex (this (onboundary (word_event offset) w')) =
         match text with
         | [] => 0%Z
         | _ :: _ => if (offset <=? 0)%Z then 0%Z else 1%Z
         end.
Proof.
  intros Hall. cbv zeta.
  destruct (speak_state text options w) as (Htext & Hwords & Hzero & _).
  split; [reflexivity|]. split.
  { rewrite Hwords. destruct text as [|c rest]; [reflexivity|].
    apply split_ws_all_space; [exact Hall | discriminate]. }
  split; [exact Hzero|].
  intros offset.
  destruct (onboundary_word offset (speak text options w)) as (Hi & _).
  rewrite Hi, Htext. unfold word_index_at, substring0.
  destruct text as [|c rest]; [now rewrite firstn_nil|].
  destruct (offset <=? 0)%Z eqn:Hoff.
  - apply Z.leb_le in Hoff.
    replace (Z.to_nat (Z.min (Z.max offset 0) (Z.of_nat (length (c :: rest)))))
      with 0%nat by lia.
    reflexivity.
  - apply Z.leb_gt in Hoff.
    destruct (Z.to_nat (Z.min (Z.max offset 0) (Z.of_nat (length (c :: rest)))))
      as [|k] eqn:Hk; [simpl length in Hk; lia|].
    rewrite split_ws_all_space; [reflexivity | | simpl; discriminate].
    apply forallb_firstn, Hall.
Qed.

Lemma speak_whitespace_only_witness :
  forallb is_white_space (str "   ") = true
  /\ words (this (speak (str "   ") (observed_by 1 2) (fresh []))) = [[]; []]
  /\ wordIndex (this (speak (str "   ") (observed_by 1 2) (fresh []))) = 0%Z.
Proof.
  assert (Hall : forallb is_white_space (str "   ") = true) by reflexivity.
  split; [exact Hall|].
  destruct (speak_whitespace_only (str "   ") (observed_by 1 2) (fresh []) Hall)
    as (_ & Hwords & Hzero & _).
  split; [exact Hwords | exact Hzero].
Defined.

(** C8 as stated fails: for the white-space-only text [" "] the words are
    the two empty strings, not the one-element sequence that holds the
    text, and a boundary event at offset 1 moves [wordIndex] to 1. *)
Lemma whitespace_text_gives_two_words :
  forallb is_white_space (str " ") = true
  /\ words (this (speak (str " ") (observed_by 1 2) (fresh []))) = [[]; []]
  /\ length (words (this (speak (str " ") (observed_by 1 2) (fresh [])))) <> 1
  /\ words (this (speak (str " ") (observed_by 1 2) (fresh []))) <> [str " "]
  /\ wordIndex
       (this (onboundary (word_event 1)
                (speak (str " ") (observed_by 1 2) (fresh [])))) = 1%Z.
Proof.
  split; [reflexivity|]. split; [reflexivity|].
  split; [vm_compute; discriminate|].
  split; [vm_compute; discriminate | reflexivity].
Qed.

End DegenerateText.

(* ================================================================== *)
(** * Rate change *)
(* ================================================================== *)

Section RateChange.

(** Once [stop] has run there are no words left to rejoin. *)
Lemma changeRate_remainingText_empty (w : world) :
  changeRate_remainingText w = [].
Proof.
  destruct w as [m vs n t]. unfold changeRate_remainingText, slice_from.
  simpl. destruct (wordIndex m <? 0)%Z; now rewrite skipn_nil.
Qed.

(** [changeRate] never reaches its inner [speak]: it submits no utterance. *)
Lemma changeRate_submits_nothing (rate : Q) (w : world) :
  trace (world_of (changeRate rate w)) = trace w
  \/ trace (world_of (changeRate rate w)) = trace w ++ [synth_cancel].
Proof.
  destruct (utterance (this w)) eqn:Hu.
  - right. rewrite changeRate_live by congruence. destruct w; reflexivity.
  - left. now rewrite changeRate_idle.
Qed.

(** C2, at its own input.  With the text ["one two three four"] and
    [wordIndex] 1 after the boundary event at offset 4, [changeRate(1.5)]
    stops the session and then throws: [stop] has emptied [words], so the
    remaining text it computes is empty, and it has cleared
    [this.utterance], so reading its voice is a TypeError.  No utterance
    is submitted and no session is live afterwards. *)
Theorem changeRate_loses_session :
  let w0 := speak (str "one two three four") (observed_by 1 2) (fresh []) in
  let w1 := exec (fire_boundary 0 (word_event 4)) w0 in
  wordIndex (this w1) = 1%Z
  /\ join_space (slice_from (words (this w1)) (wordIndex (this w1)))
     = str "two three four"
  /\ changeRate_remainingText w1 = []
  /\ changeRate (3 # 2) w1 = threw TypeError (stop w1)
  /\ trace (exec (call_changeRate (3 # 2)) w1) = trace w1 ++ [synth_cancel]
  /\ utterance (this (exec (call_changeRate (3 # 2)) w1)) = None
  /\ isCurrentlyPlaying (exec (call_changeRate (3 # 2)) w1) = false.
Proof. cbv zeta. repeat split. Qed.

End RateChange.

(* ================================================================== *)
(** * Completion *)
(* ================================================================== *)

Section Completion.

(** Only a completion event invokes [onEnd], and it invokes what the
    manager holds in [onEnd] at that moment. *)
Lemma exec_end_calls (s : step) (w : world) :
  end_calls (trace (exec s w)) =
    end_calls (trace w) +
    match s with
    | fire_end u =>
        if (u <? created w) && is_function (onEnd (this w)) then 1 else 0
    | _ => 0
    end.
Proof.
  destruct s; unfold exec; simpl perform; simpl world_of.
  - destruct (speak_state text options w) as (_ & _ & _ & _ & _ & _ & _ & H).
    lia.
  - destruct (pause_same_session w) as (_ & _ & _ & _ & _ & _ & H). lia.
  - destruct (resume_same_session w) as (_ & _ & _ & _ & _ & _ & H). lia.
  - unfold togglePlayPause. destruct (isPlaying (this w)).
    + destruct (pause_same_session w) as (_ & _ & _ & _ & _ & _ & H). lia.
    + destruct (resume_same_session w) as (_ & _ & _ & _ & _ & _ & H). lia.
  - rewrite stop_end_calls. lia.
  - rewrite changeRate_end_calls. lia.
  - destruct (u <? created w); [|lia].
    destruct (onboundary_same_session event w)
      as (_ & _ & _ & _ & _ & _ & H). lia.
  - destruct (u <? created w); simpl; [|lia].
    destruct (onend_trace w) as [Htrace _]. rewrite Htrace, end_calls_app.
    destruct (onEnd (this w)); simpl; rewrite ?end_calls_one; reflexivity.
Qed.

Lemma end_observers_app (t t' : list effect) :
  end_observers (t ++ t') = end_observers t ++ end_observers t'.
Proof. unfold end_observers. apply flat_map_app. Qed.

Lemma end_calls_observers (t : list effect) :
  end_calls t = length (end_observers t).
Proof.
  induction t as [|e t IH]; [reflexivity|].
  change (e :: t) with ([e] ++ t).
  rewrite end_calls_app, end_observers_app, length_app, IH, end_calls_one.
  destruct e; reflexivity.
Qed.

(** What one step adds to the observers invoked so far, and what it does
    to the stored [onEnd] and the number of utterances when it is not a
    [speak], a [stop] or a [changeRate]. *)
Lemma exec_end_observers (s : step) (w : world) :
  end_observers (trace (exec s w)) =
    end_observers (trace w) ++
    match s with
    | fire_end u =>
        if u <? created w then
          match onEnd (this w) with cb_function f => [f] | _ => [] end
        else []
    | _ => []
    end.
Proof.
  destruct s; unfold exec; simpl perform; simpl world_of.
  - destruct w as [m vs n t]. simpl.
    rewrite !end_observers_app. simpl. now rewrite !app_nil_r.
  - destruct w as [m vs n t]. unfold pause. simpl.
    destruct (isPlaying m); simpl; rewrite ?end_observers_app; simpl;
      now rewrite ?app_nil_r.
  - destruct w as [m vs n t]. unfold resume. simpl.
    destruct (isPlaying m), (utterance m); simpl;
      rewrite ?end_observers_app; simpl; now rewrite ?app_nil_r.
  - destruct w as [m vs n t]. unfold togglePlayPause, pause, resume. simpl.
    destruct (isPlaying m), (utterance m); simpl;
      rewrite ?end_observers_app; simpl; now rewrite ?app_nil_r.
  - destruct w as [m vs n t]. simpl.
    rewrite ?end_observers_app. simpl. now rewrite ?app_nil_r.
  - destruct (utterance (this w)) as [live|] eqn:Hu.
    + rewrite changeRate_live by congruence. clear Hu live.
      destruct w as [m vs n t]. simpl.
      rewrite ?end_observers_app. simpl. now rewrite ?app_nil_r.
    + rewrite changeRate_idle by exact Hu. simpl. now rewrite app_nil_r.
  - destruct (u <? created w); [|now rewrite app_nil_r].
    destruct w as [m vs n t]. unfold onboundary.
    destruct (eqb (Event.name event) (str "word")); simpl;
      [|now rewrite app_nil_r].
    destruct (onWordChange m); simpl; rewrite ?end_observers_app; simpl;
      now rewrite ?app_nil_r.
  - destruct (u <? created w); [|now rewrite app_nil_r].
    destruct (onend_trace w) as [Htrace _]. rewrite Htrace, end_observers_app.
    destruct (onEnd (this w)); reflexivity.
Qed.

Lemma exec_within_session (s : step) (w : world) :
  within_session s = true ->
  onEnd (this (exec s w)) = onEnd (this w) /\ created (exec s w) = created w.
Proof.
  destruct s; simpl; try discriminate; intros _; unfold exec; simpl.
  - destruct (pause_same_session w) as (_ & _ & _ & _ & H5 & H6 & _). auto.
  - destruct (resume_same_session w) as (_ & _ & _ & _ & H5 & H6 & _). auto.
  - unfold togglePlayPause. destruct (isPlaying (this w)).
    + destruct (pause_same_session w) as (_ & _ & _ & _ & H5 & H6 & _). auto.
    + destruct (resume_same_session w) as (_ & _ & _ & _ & H5 & H6 & _). auto.
  - destruct (u <? created w); [|auto].
    destruct (onboundary_same_session event w)
      as (_ & _ & _ & _ & H5 & H6 & _). auto.
  - destruct (u <? created w); [|auto].
    destruct w as [m vs n t]. unfold onend. simpl.
    destruct (onEnd m) eqn:Hobserver; simpl; auto.
Qed.

(** Within a session every completion event that finds a handler invokes
    the session's [onEnd], and nothing else does. *)
Lemma run_within_session (g : nat) (steps : list step) :
  forall w,
    onEnd (this w) = cb_function g ->
    forallb within_session steps = true ->
    onEnd (this (run steps w)) = cb_function g
    /\ created (run steps w) = created w
    /\ end_observers (trace (run steps w)) =
         end_observers (trace w) ++ repeat g (completions (created w) steps).
Proof.
  induction steps as [|s steps IH]; intros w Hg Hall.
  - simpl. now rewrite app_nil_r.
  - simpl in Hall. apply andb_true_iff in Hall as [Hs Hrest].
    rewrite run_cons.
    destruct (exec_within_session s w Hs) as [Hkeep Hcreated].
    destruct (IH (exec s w)) as (I1 & I2 & I3);
      [congruence | exact Hrest |].
    split; [exact I1|]. split; [congruence|].
    rewrite I3, exec_end_observers, Hcreated, <- app_assoc. f_equal.
    unfold completions. simpl filter.
    destruct s; try reflexivity.
    rewrite Hg. destruct (u <? created w); reflexivity.
Qed.

Lemma keeps_session_no_completion (n : nat) (steps : list step) :
  forallb keeps_session steps = true ->
  forallb within_session steps = true /\ completions n steps = 0.
Proof.
  induction steps as [|s steps IH]; [auto|]. simpl.
  intros Hall. apply andb_true_iff in Hall as [Hs Hrest].
  destruct (IH Hrest) as [Hwithin Hnone]. unfold completions in *.
  destruct s; try discriminate; simpl; auto.
Qed.

(** C1, as the code has it.  A call of the controller or a boundary event
    never invokes [onEnd]; a completion event that the engine fires on an
    utterance sets [isPlaying] to false and invokes the observer the
    manager holds at that moment, once when it is a function, and whether
    or not that utterance is the live one.  So in a session begun by
    [speak] with the observer [g], as long as no [stop], [speak] or
    [changeRate] follows, [g] is invoked once for every completion event
    that fires, those of earlier, cancelled utterances included, and by
    nothing else.  When the session's own completion event fires, [g] has
    been invoked exactly once if and only if no other completion event has
    fired since the [speak]; this is so when only calls of [pause],
    [resume], [togglePlayPause] and boundary events came in between. *)
Theorem onEnd_once_per_completion_event
    (text : jsstring) (options : Options.t) (g : nat) (w : world)
    (steps : list step) :
  Options.onEnd options = cb_function g ->
  forallb within_session steps = true ->
  let w0 := speak text options w in
  let w1 := run steps w0 in
  let w2 := exec (fire_end (created w)) w1 in
  let earlier := completions (created w0) steps in
  end_observers (trace w1) = end_observers (trace w) ++ repeat g earlier
  /\ trace w2 = trace w1 ++ [call_onEnd g]
  /\ end_observers (trace w2) =
       end_observers (trace w) ++ repeat g earlier ++ [g]
  /\ end_calls (trace w2) = end_calls (trace w) + earlier + 1
  /\ (end_calls (trace w2) = end_calls (trace w) + 1 <-> earlier = 0)
  /\ (forallb keeps_session steps = true -> earlier = 0)
  /\ isPlaying (this w2) = false
  /\ forall (s : step) (w' : world),
       match s with
       | fire_end u =>
           if u <? created w' then
             trace (exec s w') =
               trace w' ++
               match onEnd (this w') with
               | cb_function f => [call_onEnd f]
               | _ => []
               end
             /\ isPlaying (this (exec s w')) = false
           else exec s w' = w'
       | _ => end_observers (trace (exec s w')) = end_observers (trace w')
       end.
Proof.
  intros Hg Hall. cbv zeta.
  destruct (speak_state text options w)
    as (_ & _ & _ & _ & _ & S6 & S7 & _).
  pose proof (exec_end_observers (call_speak text options) w) as Hspeak.
  unfold exec in Hspeak. simpl perform in Hspeak. simpl world_of in Hspeak.
  rewrite app_nil_r in Hspeak.
  destruct (run_within_session g steps (speak text options w))
    as (R1 & R2 & R3); [congruence | exact Hall |].
  set (w0 := speak text options w) in *.
  set (w1 := run steps w0) in *.
  assert (Hown : created w < created w1) by lia.
  rewrite (exec_fire_end _ _ Hown).
  destruct (onend_trace w1) as [Htrace Hplaying].
  rewrite R1 in Htrace. rewrite Hspeak in R3.
  assert (Hobs : end_observers (trace (onend w1)) =
                 end_observers (trace w)
                 ++ repeat g (completions (created w0) steps) ++ [g]).
  { rewrite Htrace, end_observers_app, R3, <- app_assoc. reflexivity. }
  assert (Hcount : end_calls (trace (onend w1)) =
                   end_calls (trace w) + completions (created w0) steps + 1).
  { rewrite !end_calls_observers, Hobs, !length_app, repeat_length.
    simpl. lia. }
  split; [exact R3|]. split; [exact Htrace|]. split; [exact Hobs|].
  split; [exact Hcount|]. split; [rewrite Hcount; lia|].
  split; [intros Hkeeps; apply keeps_session_no_completion, Hkeeps|].
  split; [exact Hplaying|].
  intros s w'. pose proof (exec_end_observers s w') as Hstep.
  destruct s; try (rewrite app_nil_r in Hstep; exact Hstep).
  unfold exec. simpl perform. simpl world_of.
  destruct (u <? created w'); [apply onend_trace | reflexivity].
Qed.

Lemma onEnd_once_per_completion_event_witness :
  Options.onEnd (observed_by 1 8) = cb_function 8
  /\ forallb within_session [fire_boundary 1 (word_event 0); fire_end 0] = true
  /\ end_observers
       (trace (exec (fire_end 1)
          (run [fire_boundary 1 (word_event 0); fire_end 0]
             (speak (str "b") (observed_by 1 8) superseding))))
     = [8; 8].
Proof.
  assert (Hg : Options.onEnd (observed_by 1 8) = cb_function 8) by reflexivity.
  assert (Hall : forallb within_session
                   [fire_boundary 1 (word_event 0); fire_end 0] = true)
    by reflexivity.
  split; [exact Hg|]. split; [exact Hall|].
  destruct (onEnd_once_per_completion_event (str "b") (observed_by 1 8) 8
              superseding [fire_boundary 1 (word_event 0); fire_end 0] Hg Hall)
    as (_ & _ & Hobservers & _).
  exact Hobservers.
Defined.

(** C1 as stated fails: nothing suppresses the completion event of a
    cancelled utterance.  Fired after [stop()], it invokes the [onEnd] of
    the stopped session.  Fired after a superseding [speak], it invokes the
    [onEnd] of the new session and marks it not playing while it is live,
    and the new session's own completion then invokes that [onEnd] a
    second time. *)
Lemma onEnd_fires_for_cancelled_utterance :
  trace (run [call_speak (str "a") (observed_by 1 7); call_stop; fire_end 0]
           (fresh []))
    = [synth_cancel; synth_speak utterance_a; synth_cancel; call_onEnd 7]
  /\ trace (run [call_speak (str "a") (observed_by 1 7);
                 call_speak (str "b") (observed_by 1 8); fire_end 0]
              (fresh []))
       = [synth_cancel; synth_speak utterance_a;
          synth_cancel; synth_speak utterance_b; call_onEnd 8]
  /\ isPlaying (this (run [call_speak (str "a") (observed_by 1 7);
                           call_speak (str "b") (observed_by 1 8); fire_end 0]
                        (fresh []))) = false
  /\ end_calls (trace (run [call_speak (str "a") (observed_by 1 7);
                            call_speak (str "b") (observed_by 1 8);
                            fire_end 0; fire_end 1]
                         (fresh []))) = 2.
Proof. repeat split. Qed.

End Completion.

(* ================================================================== *)
(** * Reading history *)
(* ================================================================== *)

Section History.
Import Storage.

Lemma slice_to_firstn {A : Type} (a : list A) (finish : nat) :
  slice_to a finish = firstn finish a.
Proof.
  unfold slice_to. destruct (Nat.le_ge_cases finish (length a)) as [H|H].
  - now rewrite Nat.min_l.
  - rewrite Nat.min_r by exact H. now rewrite !firstn_all2 by lia.
Qed.

Lemma addHistoryEntry_stored (now : N) (entry : Entry.t) (s : local) :
  addHistoryEntry now entry s =
    {| history :=
         Some ({| HistoryEntry.id := toString now;
                  HistoryEntry.url := Entry.url entry;
                  HistoryEntry.timestamp := Entry.timestamp entry;
                  HistoryEntry.extractedText := Entry.extractedText entry |}
               :: firstn 99 (getHistory s)) |}.
Proof.
  unfold addHistoryEntry, unshift, history_limit.
  now rewrite slice_to_firstn.
Qed.

(** C10. Whatever history the store holds, [addHistoryEntry] stores the
    new entry, under the id made from the clock, in front of the first 99
    entries of the old history: the new entry is first, the stored history
    has at most 100 entries, and the old entries from the hundredth on are
    dropped. *)
Theorem addHistoryEntry_front_and_bounded
    (now : N) (entry : Entry.t) (s : local) :
  let newEntry :=
    {| HistoryEntry.id := toString now;
       HistoryEntry.url := Entry.url entry;
       HistoryEntry.timestamp := Entry.timestamp entry;
       HistoryEntry.extractedText := Entry.extractedText entry |} in
  let s' := addHistoryEntry now entry s in
  history s' = Some (newEntry :: firstn 99 (getHistory s))
  /\ hd_error (getHistory s') = Some newEntry
  /\ length (getHistory s') = Nat.min 100 (S (length (getHistory s)))
  /\ length (getHistory s') <= 100.
Proof.
  cbv zeta. rewrite (addHistoryEntry_stored now entry s).
  set (old := getHistory s). unfold getHistory. cbn [history hd_error length].
  rewrite length_firstn. repeat split; lia.
Qed.

(** The bound survives any number of additions. *)
Lemma history_bounded_after_adds
    (adds : list (N * Entry.t)) (now : N) (entry : Entry.t) (s : local) :
  length (getHistory
            (fold_left (fun s a => addHistoryEntry (fst a) (snd a) s)
               adds (addHistoryEntry now entry s))) <= 100.
Proof.
  revert now entry s. induction adds as [|[now' entry'] adds IH];
    intros now entry s.
  - simpl fold_left. rewrite (addHistoryEntry_stored now entry s).
    set (old := getHistory s). unfold getHistory. cbn [history length].
    rewrite length_firstn. lia.
  - simpl fold_left. apply IH.
Qed.

End History.


(* ================================================================== *)
(** * The controller over whole runs *)
(* ================================================================== *)

Section Runs.

Lemma word_index_at_empty (offset : Z) : word_index_at [] offset = 0%Z.
Proof. unfold word_index_at, substring0. now rewrite firstn_nil. Qed.

Lemma run_app (steps steps' : list step) (w : world) :
  run (steps ++ steps') w = run steps' (run steps w).
Proof. unfold run. apply fold_left_app. Qed.

Lemma stop_invariant (w : world) : session_invariant (this (stop w)).
Proof. destruct w as [m vs n t]. unfold session_invariant. simpl. auto. Qed.

Lemma speak_invariant (text : jsstring) (options : Options.t) (w : world) :
  session_invariant (this (speak text options w)).
Proof.
  destruct w as [m vs n t]. unfold session_invariant. simpl.
  pose proof (split_ws_length_pos text). repeat split; lia.
Qed.

Lemma onboundary_invariant (event : Event.t) (w : world) :
  session_invariant (this w) -> session_invariant (this (onboundary event w)).
Proof.
  intros Hinv.
  pose proof (onboundary_index event w) as Hidx.
  destruct (onboundary_frame event w)
    as (Htext & Hwords & Hutt & Hplaying & _).
  unfold session_invariant in *. rewrite Hutt, Htext, Hwords, Hplaying, Hidx.
  destruct (is_word_event event); [|exact Hinv].
  destruct (utterance (this w)) as [u|].
  - destruct Hinv as (Hu & Hw & _). repeat split; auto.
    + apply word_index_at_range.
    + rewrite Hw. apply word_index_at_range.
  - destruct Hinv as (Ht & Hw & _ & Hp). rewrite Ht.
    repeat split; auto. apply word_index_at_empty.
Qed.

Lemma exec_invariant (s : step) (w : world) :
  session_invariant (this w) -> session_invariant (this (exec s w)).
Proof.
  intros Hinv. destruct s; unfold exec; simpl perform; simpl world_of.
  - apply speak_invariant.
  - destruct w as [[u text playing word i ws f g] vs n t].
    unfold pause, session_invariant in *. simpl in *.
    destruct playing; simpl; [|exact Hinv].
    destruct u; tauto.
  - destruct w as [[u text playing word i ws f g] vs n t].
    unfold resume, session_invariant in *. simpl in *.
    destruct playing, u; simpl; tauto.
  - destruct w as [[u text playing word i ws f g] vs n t].
    unfold togglePlayPause, pause, resume, session_invariant in *. simpl in *.
    destruct playing, u; simpl; tauto.
  - apply stop_invariant.
  - destruct (utterance (this w)) eqn:Hu.
    + rewrite changeRate_live by congruence. apply stop_invariant.
    + rewrite changeRate_idle by exact Hu. exact Hinv.
  - destruct (u <? created w); [apply onboundary_invariant|]; exact Hinv.
  - destruct (u <? created w); [|exact Hinv].
    destruct w as [[u' text playing word i ws f g] vs n t].
    unfold onend, session_invariant in *. simpl in *.
    destruct g; simpl; destruct u'; tauto.
Qed.

Lemma run_invariant (steps : list step) :
  forall w, session_invariant (this w) ->
            session_invariant (this (run steps w)).
Proof.
  induction steps as [|s steps IH]; intros w Hinv; [exact Hinv|].
  rewrite run_cons. apply IH, exec_invariant, Hinv.
Qed.

Lemma fresh_invariant (vs : list Voice.t) : session_invariant (this (fresh vs)).
Proof. unfold session_invariant. simpl. auto. Qed.

(** X1. Whatever calls and engine events came before, the manager is in
    one of two shapes.  With an utterance, its text is the utterance's
    text, its words are the pieces of that text and [wordIndex] is an index
    into them.  Without one, text and words are empty, [wordIndex] is 0 and
    nothing is playing: playing implies a live utterance. *)
Theorem session_invariant_always (vs : list Voice.t) (steps : list step) :
  session_invariant (this (run steps (fresh vs))).
Proof. apply run_invariant, fresh_invariant. Qed.

(** X2. On any manager a run can reach, [togglePlayPause()] flips
    [isCurrentlyPlaying()] when there is a session, and a second toggle
    brings the manager back; with no session it does nothing at all. *)
Theorem toggle_flips_live_session (vs : list Voice.t) (steps : list step) :
  let w := run steps (fresh vs) in
  match utterance (this w) with
  | Some _ =>
      isCurrentlyPlaying (togglePlayPause w) = negb (isCurrentlyPlaying w)
      /\ this (togglePlayPause (togglePlayPause w)) = this w
  | None => togglePlayPause w = w
  end.
Proof.
  cbv zeta. pose proof (run_invariant steps (fresh vs) (fresh_invariant vs)) as Hinv.
  destruct (run steps (fresh vs)) as [[u text playing word i ws f g] vs' n t].
  unfold session_invariant in Hinv. simpl in *.
  unfold togglePlayPause, pause, resume, isCurrentlyPlaying. simpl.
  destruct u as [u|].
  - destruct playing; simpl; split; reflexivity.
  - destruct Hinv as (_ & _ & _ & ->). reflexivity.
Qed.

Lemma speaks_follow_cancel_app (t t' : list effect) :
  forall cancelled,
    speaks_follow_cancel cancelled (t ++ t') =
      speaks_follow_cancel cancelled t
      && speaks_follow_cancel (ends_with_cancel cancelled t) t'.
Proof.
  induction t as [|e t IH]; intros cancelled; [reflexivity|].
  destruct e; simpl; rewrite IH; try reflexivity.
  now rewrite andb_assoc.
Qed.

(** What a step adds to the trace contains a [synth_speak] only right
    after a [synth_cancel] of its own. *)
Lemma exec_trace_grows (s : step) (w : world) :
  exists added,
    trace (exec s w) = trace w ++ added
    /\ forall cancelled, speaks_follow_cancel cancelled added = true.
Proof.
  destruct s; unfold exec; simpl perform; simpl world_of.
  - exists [synth_cancel;
            synth_speak
              {| Utterance.id := created w; Utterance.text := text;
                 Utterance.rate := rate_or_default (Options.rate options);
                 Utterance.voice :=
                   resolve_voice (Options.voiceName options) (voices w) |}].
    split; [|reflexivity]. destruct w. simpl. now rewrite <- app_assoc.
  - destruct w as [m vs n t]. unfold pause. simpl.
    destruct (isPlaying m); simpl.
    + exists [synth_pause]. auto.
    + exists []. now rewrite app_nil_r.
  - destruct w as [m vs n t]. unfold resume. simpl.
    destruct (isPlaying m), (utterance m); simpl;
      try (exists []; now rewrite app_nil_r).
    exists [synth_resume]. auto.
  - destruct w as [m vs n t]. unfold togglePlayPause, pause, resume. simpl.
    destruct (isPlaying m), (utterance m); simpl;
      try (exists []; now rewrite app_nil_r);
      try (exists [synth_pause]; now auto).
    exists [synth_resume]. auto.
  - exists [synth_cancel]. destruct w. auto.
  - destruct (utterance (this w)) eqn:Hu.
    + rewrite changeRate_live by congruence.
      exists [synth_cancel]. destruct w. auto.
    + rewrite changeRate_idle by exact Hu. exists []. now rewrite app_nil_r.
  - destruct (u <? created w); [|exists []; now rewrite app_nil_r].
    destruct w as [m vs n t]. unfold onboundary.
    destruct (eqb (Event.name event) (str "word")); simpl;
      [|exists []; now rewrite app_nil_r].
    destruct (onWordChange m); simpl; try (exists []; now rewrite app_nil_r).
    eexists. split; [reflexivity|]. reflexivity.
  - destruct (u <? created w); [|exists []; now rewrite app_nil_r].
    destruct (onend_trace w) as [Htrace _]. rewrite Htrace.
    destruct (onEnd (this w)); eexists; split; reflexivity.
Qed.

Lemma run_speaks_follow_cancel (steps : list step) :
  forall w, speaks_follow_cancel false (trace w) = true ->
            speaks_follow_cancel false (trace (run steps w)) = true.
Proof.
  induction steps as [|s steps IH]; intros w Hw; [exact Hw|].
  rewrite run_cons. apply IH.
  destruct (exec_trace_grows s w) as (added & -> & Hadded).
  now rewrite speaks_follow_cancel_app, Hw, Hadded.
Qed.

(** X3. In every run, each utterance the controller submits to the engine
    comes directly after a cancel: the engine is never handed a second
    utterance while an earlier one may still be queued. *)
Theorem every_speak_follows_cancel (vs : list Voice.t) (steps : list step) :
  speaks_follow_cancel false (trace (run steps (fresh vs))) = true.
Proof. apply run_speaks_follow_cancel. reflexivity. Qed.

(** X4. [changeRate] never restarts anything: without a session it leaves
    the world as it is, with one it sends a cancel, leaves the manager
    stopped and throws. *)
Theorem changeRate_never_restarts (rate : Q) (w : world) :
  changeRate rate w =
    match utterance (this w) with
    | Some _ => threw TypeError (stop w)
    | None => returned w
    end
  /\ trace (exec (call_changeRate rate) w) =
       trace w ++ match utterance (this w) with
                  | Some _ => [synth_cancel]
                  | None => []
                  end
  /\ isCurrentlyPlaying (exec (call_changeRate rate) w) =
       match utterance (this w) with
       | Some _ => false
       | None => isCurrentlyPlaying w
       end.
Proof.
  unfold exec. simpl perform.
  destruct (utterance (this w)) eqn:Hu.
  - rewrite changeRate_live by congruence. destruct w. repeat split.
  - rewrite changeRate_idle by exact Hu. simpl. now rewrite app_nil_r.
Qed.

(** X5. A second [pause()] or a second [resume()] in a row does nothing:
    the engine gets one command, not two. *)
Theorem pause_and_resume_idempotent (w : world) :
  pause (pause w) = pause w /\ resume (resume w) = resume w.
Proof.
  destruct w as [[u text playing word i ws f g] vs n t].
  unfold pause, resume. simpl. destruct playing, u; simpl; split; reflexivity.
Qed.

Lemma find_first_named (n : jsstring) (vs : list Voice.t) :
  (exists v, In v vs /\ Voice.name v = n) ->
  exists v, find (fun v => eqb (Voice.name v) n) vs = Some v
            /\ In v vs /\ Voice.name v = n.
Proof.
  intros (v0 & Hin & Hname).
  destruct (find (fun v => eqb (Voice.name v) n) vs) as [v|] eqn:Hfind.
  - apply find_some in Hfind as [Hv Heq]. apply eqb_eq in Heq. eauto.
  - exfalso. pose proof (find_none _ _ Hfind v0 Hin) as Hno.
    simpl in Hno. rewrite Hname in Hno.
    assert (eqb n n = true) by now apply eqb_eq. congruence.
Qed.

(** X6. When [options.voiceName] is a non-empty name that some voice of
    the engine bears, the utterance [speak] submits carries the first voice
    of the engine with exactly that name. *)
Theorem speak_named_voice
    (text : jsstring) (options : Options.t) (w : world) (n : jsstring) :
  Options.voiceName options = Some n ->
  n <> [] ->
  (exists v, In v (voices w) /\ Voice.name v = n) ->
  exists v,
    find (fun v => eqb (Voice.name v) n) (voices w) = Some v
    /\ Voice.name v = n
    /\ trace (speak text options w) =
         trace w ++
         [synth_cancel;
          synth_speak
            {| Utterance.id := created w; Utterance.text := text;
               Utterance.rate := rate_or_default (Options.rate options);
               Utterance.voice := Some v |}].
Proof.
  intros Hname Hne Hsome.
  destruct (find_first_named n (voices w) Hsome) as (v & Hfind & _ & Hv).
  exists v. split; [exact Hfind|]. split; [exact Hv|].
  destruct w as [m vs k t]. simpl in *. unfold speak. simpl.
  rewrite Hname. destruct n as [|c n']; [contradiction|].
  simpl resolve_voice. rewrite Hfind. simpl. now rewrite <- app_assoc.
Qed.

End Runs.

Section RunWitnesses.

Lemma speak_named_voice_witness :
  Options.voiceName known_voice_options = Some (str "Google US English")
  /\ str "Google US English" <> []
  /\ (exists v, In v (voices one_voice_engine)
                /\ Voice.name v = str "Google US English")
  /\ exists v,
       find (fun v => eqb (Voice.name v) (str "Google US English"))
            (voices one_voice_engine) = Some v
       /\ Voice.name v = str "Google US English".
Proof.
  assert (Hname : Options.voiceName known_voice_options
                  = Some (str "Google US English")) by reflexivity.
  assert (Hne : str "Google US English" <> []) by (vm_compute; discriminate).
  assert (Hsome : exists v, In v (voices one_voice_engine)
                            /\ Voice.name v = str "Google US English").
  { eexists. split; [left; reflexivity | reflexivity]. }
  split; [exact Hname|]. split; [exact Hne|]. split; [exact Hsome|].
  destruct (speak_named_voice (str "Hello world") known_voice_options
              one_voice_engine (str "Google US English") Hname Hne Hsome)
    as (v & Hfind & Hv & _).
  exists v. split; [exact Hfind | exact Hv].
Defined.

End RunWitnesses.

(* ================================================================== *)
(** * Words and offsets *)
(* ================================================================== *)

Section Words.

Lemma split_ws_letter (c : code_unit) (s : jsstring) :
  is_white_space c = false ->
  split_ws (c :: s) =
    match split_ws s with
    | piece :: pieces => (c :: piece) :: pieces
    | [] => [[c]]
    end.
Proof. intros Hc. simpl. now rewrite Hc. Qed.

Lemma split_ws_space_head (c : code_unit) (s : jsstring) :
  is_white_space c = true -> exists pieces, split_ws (c :: s) = [] :: pieces.
Proof.
  revert c. induction s as [|c' rest IH]; intros c Hc.
  - simpl. rewrite Hc. eauto.
  - rewrite (split_ws_space_cons c c' rest Hc).
    destruct (is_white_space c') eqn:Hc'; [apply IH, Hc' | eauto].
Qed.

Lemma split_ws_space_then_plain (c : code_unit) (s : jsstring) :
  is_white_space c = true ->
  match s with [] => False | d :: _ => is_white_space d = false end ->
  split_ws (c :: s) = [] :: split_ws s.
Proof.
  intros Hc Hs. destruct s as [|d s']; [contradiction|].
  now rewrite (split_ws_space_cons c d s' Hc), Hs.
Qed.

Lemma split_ws_plain (s : jsstring) :
  forallb plain s = true -> split_ws s = [s].
Proof.
  induction s as [|c rest IH]; intros Hall; [reflexivity|].
  simpl in Hall. apply andb_true_iff in Hall as [Hc Hrest].
  apply negb_true_iff in Hc.
  rewrite (split_ws_letter c rest Hc), (IH Hrest). reflexivity.
Qed.

(** A word followed by the end of the text or by white space is the first
    piece, and the other pieces are those of what follows. *)
Lemma split_ws_word_then (word after : jsstring) :
  forallb plain word = true ->
  starts_with_gap after = true ->
  split_ws (word ++ after) = word :: tl (split_ws after).
Proof.
  intros Hword Hgap. induction word as [|c word IH].
  - simpl. destruct after as [|c after]; [reflexivity|].
    simpl in Hgap. destruct (split_ws_space_head c after Hgap) as [pieces ->].
    reflexivity.
  - simpl in Hword. apply andb_true_iff in Hword as [Hc Hrest].
    apply negb_true_iff in Hc.
    change ((c :: word) ++ after) with (c :: (word ++ after)).
    rewrite (split_ws_letter c _ Hc), (IH Hrest). reflexivity.
Qed.

Lemma glue_single (ys : list jsstring) : ys <> [] -> glue [[]] ys = ys.
Proof. destruct ys; [contradiction | reflexivity]. Qed.

Lemma glue_cons (x : jsstring) (xs ys : list jsstring) :
  xs <> [] -> glue (x :: xs) ys = x :: glue xs ys.
Proof. destruct xs; [contradiction | reflexivity]. Qed.

Lemma glue_snoc (xs : list jsstring) (x y : jsstring) (ys : list jsstring) :
  glue (xs ++ [x]) (y :: ys) = xs ++ (x ++ y) :: ys.
Proof.
  induction xs as [|x' xs IH]; [reflexivity|].
  change ((x' :: xs) ++ [x]) with (x' :: (xs ++ [x])).
  rewrite glue_cons by (destruct xs; discriminate).
  now rewrite IH.
Qed.

(** Cutting a text where a word goes on, or at its end, cuts one piece in
    two and leaves the others whole. *)
Lemma split_ws_app_plain (a b : jsstring) :
  match b with [] => True | c :: _ => is_white_space c = false end ->
  split_ws (a ++ b) = glue (split_ws a) (split_ws b).
Proof.
  intros Hb. induction a as [|c a IH].
  - simpl app. symmetry. apply glue_single, split_ws_nonempty.
  - change ((c :: a) ++ b) with (c :: (a ++ b)).
    destruct (is_white_space c) eqn:Hc.
    + destruct a as [|c' a'].
      * simpl app. destruct b as [|d b'].
        -- simpl. rewrite Hc. reflexivity.
        -- rewrite (split_ws_space_cons c d b' Hc), Hb.
           simpl split_ws at 2. rewrite Hc.
           rewrite glue_cons by discriminate.
           now rewrite glue_single by apply split_ws_nonempty.
      * change ((c' :: a') ++ b) with (c' :: (a' ++ b)) in *.
        rewrite !split_ws_space_cons by exact Hc.
        destruct (is_white_space c').
        -- exact IH.
        -- rewrite glue_cons by apply split_ws_nonempty. now rewrite IH.
    + rewrite !split_ws_letter by exact Hc. rewrite IH.
      pose proof (split_ws_nonempty a) as Hne.
      destruct (split_ws a) as [|x [|x' xs]]; [contradiction| |reflexivity].
      simpl. destruct (split_ws b); reflexivity.
Qed.

(** A text that is empty or ends in white space ends in an empty piece. *)
Lemma split_ws_ends_in_gap (s : jsstring) :
  ends_in_gap s = true -> exists pieces, split_ws s = pieces ++ [[]].
Proof.
  unfold ends_in_gap. intros Hgap.
  destruct (rev s) as [|c r] eqn:Hrev.
  - apply (f_equal (@rev code_unit)) in Hrev. rewrite rev_involutive in Hrev.
    subst s. exists []. reflexivity.
  - apply (f_equal (@rev code_unit)) in Hrev. rewrite rev_involutive in Hrev.
    simpl in Hrev. subst s. clear -Hgap.
    assert (H : exists p ps, split_ws (rev r ++ [c]) = p :: ps ++ [[]]).
    { induction (rev r) as [|d a IH].
      - simpl. rewrite Hgap. exists [], []. reflexivity.
      - change ((d :: a) ++ [c]) with (d :: (a ++ [c])).
        destruct IH as (p & ps & IH).
        destruct (is_white_space d) eqn:Hd.
        + destruct a as [|e a'].
          * simpl app in *. rewrite (split_ws_space_cons d c [] Hd), Hgap.
            eauto.
          * change ((e :: a') ++ [c]) with (e :: (a' ++ [c])) in *.
            rewrite (split_ws_space_cons d e _ Hd).
            destruct (is_white_space e); [eauto|].
            rewrite IH. exists [], (p :: ps). reflexivity.
        + rewrite (split_ws_letter d _ Hd), IH. eauto. }
    destruct H as (p & ps & ->). exists (p :: ps). reflexivity.
Qed.

Lemma join_space_cons (x y : jsstring) (rest : list jsstring) :
  join_space (x :: y :: rest) = x ++ 32%N :: join_space (y :: rest).
Proof. reflexivity. Qed.

Lemma is_word_plain (s : jsstring) : is_word s = true -> forallb plain s = true.
Proof. destruct s; [discriminate | exact (fun H => H)]. Qed.

Lemma join_space_starts_plain (x : jsstring) (rest : list jsstring) :
  is_word x = true ->
  match join_space (x :: rest) with
  | [] => False
  | c :: _ => is_white_space c = false
  end.
Proof.
  intros Hx. destruct x as [|c x]; [discriminate|].
  simpl in Hx. apply andb_true_iff in Hx as [Hc _].
  apply negb_true_iff in Hc.
  destruct rest; simpl; exact Hc.
Qed.

(** X7. Words that are rejoined with single spaces and split again are the
    same words: [ws.join(" ").split(/\s+/)] is [ws] for every non-empty
    list of words that are themselves non-empty and free of white space. *)
Theorem split_of_join (ws : list jsstring) :
  ws <> [] ->
  forallb is_word ws = true ->
  split_ws (join_space ws) = ws.
Proof.
  induction ws as [|x rest IH]; intros Hne Hall; [contradiction|].
  simpl in Hall. apply andb_true_iff in Hall as [Hx Hrest].
  destruct rest as [|y rest'].
  - simpl. apply split_ws_plain, is_word_plain, Hx.
  - rewrite join_space_cons.
    rewrite split_ws_word_then;
      [| apply is_word_plain, Hx | reflexivity].
    assert (Hy : is_word y = true).
    { simpl in Hrest. now apply andb_true_iff in Hrest as [Hy _]. }
    pose proof (join_space_starts_plain y rest' Hy) as Hstart.
    pose proof (split_ws_space_then_plain 32%N (join_space (y :: rest'))
                  eq_refl Hstart) as Hgap.
    f_equal. etransitivity; [exact (f_equal (@tl jsstring) Hgap)|].
    simpl tl. apply IH; [discriminate | exact Hrest].
Qed.

Lemma split_of_join_witness :
  [str "two"; str "three"; str "four"] <> []
  /\ forallb is_word [str "two"; str "three"; str "four"] = true
  /\ split_ws (join_space [str "two"; str "three"; str "four"])
     = [str "two"; str "three"; str "four"].
Proof.
  assert (Hne : [str "two"; str "three"; str "four"] <> []) by discriminate.
  assert (Hall : forallb is_word [str "two"; str "three"; str "four"] = true)
    by reflexivity.
  split; [exact Hne|]. split; [exact Hall|].
  exact (split_of_join [str "two"; str "three"; str "four"] Hne Hall).
Defined.

Lemma split_ws_pieces_plain (s : jsstring) :
  Forall (fun piece => forallb plain piece = true) (split_ws s).
Proof.
  induction s as [|c rest IH]; [repeat constructor|].
  destruct (is_white_space c) eqn:Hc.
  - destruct rest as [|c' rest'].
    + simpl. rewrite Hc. repeat constructor.
    + rewrite (split_ws_space_cons c c' rest' Hc).
      destruct (is_white_space c'); [exact IH | constructor; [reflexivity | exact IH]].
  - rewrite (split_ws_letter c rest Hc).
    destruct (split_ws rest) as [|piece pieces]; [repeat constructor|].
    + simpl. unfold plain at 1. now rewrite Hc.
    + inversion IH as [|? ? Hpiece Hpieces]; subst. constructor; [|exact Hpieces].
      simpl. unfold plain at 1. now rewrite Hc.
Qed.

(** X8. No word of a session contains white space, whatever the text. *)
Theorem words_have_no_white_space
    (text : jsstring) (options : Options.t) (w : world) :
  Forall (fun word => forallb (fun c => negb (is_white_space c)) word = true)
         (words (this (speak text options w))).
Proof.
  destruct (speak_state text options w) as (_ & -> & _).
  apply split_ws_pieces_plain.
Qed.

End Words.

Section WordAtOffset.

Lemma forallb_plain_firstn (n : nat) (s : jsstring) :
  forallb plain s = true -> forallb plain (firstn n s) = true.
Proof.
  revert n. induction s as [|c s IH]; intros [|n] Hall; try reflexivity.
  simpl in *. apply andb_true_iff in Hall as [Hc Hs]. now rewrite Hc, IH.
Qed.

Lemma plain_start (s : jsstring) :
  forallb plain s = true ->
  match s with [] => True | c :: _ => is_white_space c = false end.
Proof.
  destruct s as [|c s]; [trivial|]. simpl. intros Hall.
  apply andb_true_iff in Hall as [Hc _]. now apply negb_true_iff in Hc.
Qed.

(** The pieces of a text around one of its words, and the pieces of the
    text cut anywhere inside that word. *)
Lemma split_ws_around_word (before word after : jsstring) (j : nat) :
  is_word word = true ->
  ends_in_gap before = true ->
  starts_with_gap after = true ->
  exists earlier later,
    split_ws before = earlier ++ [[]]
    /\ split_ws (before ++ word ++ after) = earlier ++ word :: later
    /\ split_ws (before ++ firstn j word) = earlier ++ [firstn j word].
Proof.
  intros Hword Hbefore Hafter.
  pose proof (is_word_plain word Hword) as Hplain.
  destruct (split_ws_ends_in_gap before Hbefore) as [earlier Hearlier].
  exists earlier, (tl (split_ws after)).
  split; [exact Hearlier|]. split.
  - rewrite split_ws_app_plain.
    + rewrite Hearlier, (split_ws_word_then word after Hplain Hafter).
      now rewrite glue_snoc.
    + destruct word as [|c word']; [discriminate|].
      exact (plain_start (c :: word') Hplain).
  - rewrite split_ws_app_plain.
    + rewrite Hearlier,
        (split_ws_plain (firstn j word) (forallb_plain_firstn j word Hplain)).
      now rewrite glue_snoc.
    + apply plain_start, forallb_plain_firstn, Hplain.
Qed.

Lemma substring0_inside_word (before word after : jsstring) (offset : Z) :
  (Z.of_nat (length before) <= offset
   <= Z.of_nat (length before + length word))%Z ->
  substring0 (before ++ word ++ after) offset =
    before ++ firstn (Z.to_nat offset - length before) word.
Proof.
  intros Hoffset. unfold substring0. rewrite !length_app.
  replace (Z.to_nat
             (Z.min (Z.max offset 0)
                (Z.of_nat (length before + (length word + length after)))))
    with (Z.to_nat offset) by lia.
  rewrite firstn_app.
  rewrite (firstn_all2 before) by lia.
  f_equal. rewrite firstn_app.
  replace (Z.to_nat offset - length before - length word) with 0 by lia.
  simpl firstn at 2. now rewrite app_nil_r.
Qed.

(** X9. A word-boundary event whose offset lies anywhere in a word of the
    text, from its first character to just behind its last, reports that
    word: [currentWord] and the word handed to [onWordChange] are the
    word, and [wordIndex] is its position among [words]. *)
Theorem boundary_reports_word_at_offset
    (before word after : jsstring) (options : Options.t) (w : world)
    (offset : Z) :
  is_word word = true ->
  ends_in_gap before = true ->
  starts_with_gap after = true ->
  (Z.of_nat (length before) <= offset
   <= Z.of_nat (length before + length word))%Z ->
  let w0 := speak (before ++ word ++ after) options w in
  let w1 := onboundary (word_event offset) w0 in
  currentWord (this w1) = Some word
  /\ index (words (this w1)) (wordIndex (this w1)) = Some word
  /\ wordIndex (this w1) = (Z.of_nat (length (split_ws before)) - 1)%Z
  /\ forall f, Options.onWordChange options = cb_function f ->
       trace w1 =
         trace w0 ++ [call_onWordChange f (Some word) (wordIndex (this w1))].
Proof.
  intros Hword Hbefore Hafter Hoffset. cbv zeta.
  set (text := before ++ word ++ after).
  destruct (speak_state text options w) as (Htext & Hwords & _ & _ & Hf & _).
  pose proof (onboundary_word offset (speak text options w)) as Hhandler.
  cbv zeta in Hhandler. rewrite Htext, Hwords, Hf in Hhandler.
  destruct Hhandler as (Hi & Hcurrent & _ & Hwords' & Htrace).
  destruct (split_ws_around_word before word after
              (Z.to_nat offset - length before) Hword Hbefore Hafter)
    as (earlier & later & Hearlier & Hall & Hcut).
  assert (Hat : word_index_at text offset = Z.of_nat (length earlier)).
  { unfold word_index_at, text.
    rewrite (substring0_inside_word before word after offset Hoffset), Hcut.
    rewrite length_app. simpl length. lia. }
  assert (Hlookup : index (split_ws text) (Z.of_nat (length earlier)) = Some word).
  { unfold index, text.
    destruct (Z.of_nat (length earlier) <? 0)%Z eqn:Hneg;
      [apply Z.ltb_lt in Hneg; lia|].
    rewrite Nat2Z.id, Hall, nth_error_app2 by lia.
    now rewrite Nat.sub_diag. }
  rewrite Hat in Hi, Hcurrent, Htrace. rewrite Hlookup in Hcurrent, Htrace.
  split; [exact Hcurrent|]. rewrite Hwords', Hi.
  split; [exact Hlookup|]. split.
  - rewrite Hearlier, length_app. simpl length. lia.
  - intros f Hfun. rewrite Htrace, Hfun. reflexivity.
Qed.

Lemma boundary_reports_word_at_offset_witness :
  is_word (str "brown") = true
  /\ ends_in_gap (str "The quick ") = true
  /\ starts_with_gap (str " fox") = true
  /\ (Z.of_nat (length (str "The quick ")) <= 12
      <= Z.of_nat (length (str "The quick ") + length (str "brown")))%Z
  /\ currentWord
       (this (onboundary (word_event 12)
                (speak (str "The quick " ++ str "brown" ++ str " fox")
                   (observed_by 1 2) (fresh []))))
     = Some (str "brown").
Proof.
  assert (Hword : is_word (str "brown") = true) by reflexivity.
  assert (Hbefore : ends_in_gap (str "The quick ") = true) by reflexivity.
  assert (Hafter : starts_with_gap (str " fox") = true) by reflexivity.
  assert (Hoffset : (Z.of_nat (length (str "The quick ")) <= 12
                     <= Z.of_nat (length (str "The quick ")
                                  + length (str "brown")))%Z)
    by (vm_compute; split; discriminate).
  split; [exact Hword|]. split; [exact Hbefore|]. split; [exact Hafter|].
  split; [exact Hoffset|].
  destruct (boundary_reports_word_at_offset (str "The quick ") (str "brown")
              (str " fox") (observed_by 1 2) (fresh []) 12
              Hword Hbefore Hafter Hoffset) as (Hcurrent & _).
  exact Hcurrent.
Defined.

End WordAtOffset.

(* ================================================================== *)
(** * The stores *)
(* ================================================================== *)

Section Stores.
Import Storage.

Lemma getHistory_add (now : N) (entry : Entry.t) (s : local) :
  getHistory (addHistoryEntry now entry s) =
    firstn 100 (entry_at now entry :: getHistory s).
Proof. rewrite addHistoryEntry_stored. reflexivity. Qed.

Lemma firstn_within_firstn {A : Type} (limit : nat) (newer : list A)
      (x y : A) (old : list A) :
  firstn limit (newer ++ x :: firstn limit (y :: old)) =
    firstn limit (newer ++ x :: y :: old).
Proof.
  rewrite !firstn_app. f_equal.
  destruct (limit - length newer) as [|k] eqn:Hk; [reflexivity|].
  cbn [firstn]. f_equal. rewrite firstn_firstn. f_equal. lia.
Qed.

Lemma getHistory_adds (adds : list (N * Entry.t)) :
  forall (now : N) (entry : Entry.t) (s : local),
    getHistory (addHistoryEntries adds (addHistoryEntry now entry s)) =
      firstn 100
        (rev (map (fun a => entry_at (fst a) (snd a)) adds)
         ++ entry_at now entry :: getHistory s).
Proof.
  induction adds as [|[now' entry'] adds IH]; intros now entry s.
  - apply getHistory_add.
  - unfold addHistoryEntries in *. cbn [fold_left fst snd].
    rewrite IH, getHistory_add. cbn [map rev fst snd].
    rewrite <- app_assoc. cbn [app]. apply firstn_within_firstn.
Qed.

Lemma history_after_first
    (now : N) (entry : Entry.t) (adds : list (N * Entry.t)) (s : local) :
  getHistory (addHistoryEntries ((now, entry) :: adds) s) =
    firstn 100
      (rev (map (fun a => entry_at (fst a) (snd a)) ((now, entry) :: adds))
       ++ getHistory s).
Proof.
  unfold addHistoryEntries. cbn [fold_left fst snd].
  fold (addHistoryEntries adds (addHistoryEntry now entry s)).
  rewrite getHistory_adds. cbn [map rev fst snd].
  now rewrite <- app_assoc.
Qed.

(** X10. After one or more [addHistoryEntry] calls the stored history is
    the hundred newest of: the added entries, the last added first, then
    the history that was stored before. *)
Theorem history_newest_first
    (now : N) (entry : Entry.t) (adds : list (N * Entry.t)) (s : local) :
  getHistory (addHistoryEntries ((now, entry) :: adds) s) =
    firstn 100
      (rev (map (fun a => entry_at (fst a) (snd a)) ((now, entry) :: adds))
       ++ getHistory s).
Proof. apply history_after_first. Qed.

Lemma to_uint_not_nil (n : N) : N.to_uint n <> Decimal.Nil.
Proof.
  intros Hnil. pose proof (DecimalN.Unsigned.of_to n) as Hback.
  rewrite Hnil in Hback. simpl in Hback. subst n. discriminate.
Qed.

Lemma str_injective (a b : string) : str a = str b -> a = b.
Proof.
  unfold str. intros Heq.
  rewrite <- (string_of_list_ascii_of_string a),
          <- (string_of_list_ascii_of_string b).
  f_equal.
  revert Heq. generalize (list_ascii_of_string a) (list_ascii_of_string b).
  induction l as [|x l IH]; intros [|y l'] Heq; simpl in Heq;
    try discriminate; [reflexivity|].
  inversion Heq as [[Hxy Hrest]]. f_equal; [|apply IH, Hrest].
  rewrite <- (ascii_N_embedding x), <- (ascii_N_embedding y). now rewrite Hxy.
Qed.

Lemma toString_injective (a b : N) : toString a = toString b -> a = b.
Proof.
  unfold toString. intros Heq. apply str_injective in Heq.
  assert (Hsome : Some (N.to_uint a) = Some (N.to_uint b)).
  { rewrite <- (NilZero.usu (N.to_uint a) (to_uint_not_nil a)),
            <- (NilZero.usu (N.to_uint b) (to_uint_not_nil b)).
    now rewrite Heq. }
  inversion Hsome as [Huint].
  rewrite <- (DecimalN.Unsigned.of_to a), <- (DecimalN.Unsigned.of_to b).
  now rewrite Huint.
Qed.

Lemma NoDup_firstn {A : Type} (n : nat) (l : list A) :
  NoDup l -> NoDup (firstn n l).
Proof.
  revert n. induction l as [|x l IH]; intros [|n] Hnd; simpl;
    try constructor.
  - inversion Hnd as [|? ? Hnotin Hrest]; subst.
    intros Hin. apply Hnotin. revert Hin. clear.
    revert n. induction l as [|y l IH]; intros [|n] Hin; simpl in *;
      try contradiction.
    destruct Hin as [->|Hin]; [now left | right; eapply IH; eauto].
  - inversion Hnd; subst. now apply IH.
Qed.

Lemma NoDup_map_injective {A B : Type} (f : A -> B) (l : list A) :
  (forall a b, f a = f b -> a = b) -> NoDup l -> NoDup (map f l).
Proof.
  intros Hinj Hnd. induction Hnd as [|x l Hnotin Hnd IH]; simpl; constructor.
  - intros Hin. apply in_map_iff in Hin as (y & Heq & Hy).
    apply Hinj in Heq. subst y. contradiction.
  - exact IH.
Qed.

Lemma increasing_NoDup (l : list N) : StronglySorted N.lt l -> NoDup l.
Proof.
  induction 1 as [|x l Hsorted IH Hall]; constructor; [|exact IH].
  intros Hin. rewrite Forall_forall in Hall. specialize (Hall x Hin).
  now apply N.lt_irrefl in Hall.
Qed.

(** X11. The id of a history entry is the decimal form of the clock
    reading, and two readings have the same id only when they are equal.
    So entries added to an empty history at increasing clock readings have
    pairwise different ids; entries added within the same millisecond share
    one. *)
Theorem history_ids_distinct (adds : list (N * Entry.t)) :
  StronglySorted N.lt (map fst adds) ->
  NoDup (map HistoryEntry.id
           (getHistory (addHistoryEntries adds {| history := None |})))
  /\ forall a b : N, toString a = toString b <-> a = b.
Proof.
  intros Hsorted. split.
  - destruct adds as [|[now entry] adds]; [constructor|].
    rewrite history_after_first.
    change (getHistory {| history := None |}) with (@nil HistoryEntry.t).
    rewrite app_nil_r.
    rewrite <- firstn_map. apply NoDup_firstn.
    rewrite map_rev, map_map.
    change (fun x : N * Entry.t => HistoryEntry.id (entry_at (fst x) (snd x)))
      with (fun x : N * Entry.t => toString (fst x)).
    apply NoDup_rev. rewrite <- (map_map fst toString).
    apply NoDup_map_injective; [exact toString_injective|].
    apply increasing_NoDup, Hsorted.
  - intros a b. split; [apply toString_injective | now intros ->].
Qed.

End Stores.

Section StoreWitnesses.
Import Storage.

Lemma history_ids_distinct_witness :
  StronglySorted N.lt (map fst two_readings)
  /\ NoDup (map HistoryEntry.id
              (getHistory (addHistoryEntries two_readings {| history := None |}))).
Proof.
  assert (Hsorted : StronglySorted N.lt (map fst two_readings)).
  { simpl. repeat constructor. }
  split; [exact Hsorted|].
  exact (proj1 (history_ids_distinct two_readings Hsorted)).
Defined.

(** X12. A preference that was saved is what its getter returns, except
    that a speed of 0 reads back as 1.0; saving one preference leaves the
    other two alone; a store in which nothing was saved, and a store after
    [resetAllPreferences()], give the empty key, the speed 1.0 and the
    empty voice. *)
Theorem preferences_round_trip
    (s : sync) (key voice : jsstring) (speed : Q) :
  getApiKey (saveApiKey key s) = key
  /\ getDefaultVoice (saveDefaultVoice voice s) = voice
  /\ getDefaultSpeed (saveDefaultSpeed speed s) =
       (if Qeq_bool speed 0 then 1%Q else speed)
  /\ (getDefaultSpeed (saveApiKey key s) = getDefaultSpeed s
      /\ getDefaultVoice (saveApiKey key s) = getDefaultVoice s)
  /\ (getApiKey (saveDefaultSpeed speed s) = getApiKey s
      /\ getDefaultVoice (saveDefaultSpeed speed s) = getDefaultVoice s)
  /\ (getApiKey (saveDefaultVoice voice s) = getApiKey s
      /\ getDefaultSpeed (saveDefaultVoice voice s) = getDefaultSpeed s)
  /\ (getApiKey unset = [] /\ getDefaultSpeed unset = 1%Q
      /\ getDefaultVoice unset = [])
  /\ (getApiKey (resetAllPreferences s) = []
      /\ getDefaultSpeed (resetAllPreferences s) = 1%Q
      /\ getDefaultVoice (resetAllPreferences s) = []).
Proof.
  destruct s as [k sp v]. unfold getApiKey, getDefaultVoice, getDefaultSpeed.
  simpl. destruct key, voice; repeat split; reflexivity.
Qed.

End StoreWitnesses.

(* ================================================================== *)
(** * The options page *)
(* ================================================================== *)

Section Options.
Import OptionsPage.

Lemma halves_add_up (n : Z) : (floor_half n + ceil_half n = n)%Z.
Proof. unfold floor_half, ceil_half. Z.div_mod_to_equations. lia. Qed.

Lemma halves_nonnegative (n : Z) :
  (0 <= n)%Z -> (0 <= floor_half n /\ 0 <= ceil_half n)%Z.
Proof. unfold floor_half, ceil_half. intros Hn. Z.div_mod_to_equations. lia. Qed.

Lemma str_length_dots : length (str "...") = 3.
Proof. reflexivity. Qed.

(** What [truncateUrl] returns for a URL that is too long even without
    its protocol. *)
Lemma truncateUrl_long (url : jsstring) (maxLength : Z) :
  (3 <= maxLength)%Z ->
  (maxLength < Z.of_nat (length (strip_protocol url)))%Z ->
  (maxLength < Z.of_nat (length url))%Z ->
  truncateUrl url maxLength =
    firstn (Z.to_nat (floor_half (maxLength - 3))) (strip_protocol url)
    ++ str "..."
    ++ skipn (length (strip_protocol url)
              - Z.to_nat (ceil_half (maxLength - 3)))
         (strip_protocol url).
Proof.
  intros Hmax Hdisplay Hurl. unfold truncateUrl.
  destruct (Z.of_nat (length url) <=? maxLength)%Z eqn:H1;
    [apply Z.leb_le in H1; lia|].
  destruct (Z.of_nat (length (strip_protocol url)) <=? maxLength)%Z eqn:H2;
    [apply Z.leb_le in H2; lia|].
  cbv zeta. unfold substring0, substring_from.
  destruct (halves_nonnegative (maxLength - 3)) as [Hfloor Hceil]; [lia|].
  pose proof (halves_add_up (maxLength - 3)) as Hsum.
  f_equal; [f_equal; lia|]. f_equal. f_equal. lia.
Qed.

Lemma truncateUrl_length (url : jsstring) (maxLength : Z) :
  (3 <= maxLength)%Z ->
  (Z.of_nat (length (truncateUrl url maxLength)) <= maxLength)%Z.
Proof.
  intros Hmax.
  destruct (Z.of_nat (length url) <=? maxLength)%Z eqn:H1.
  - unfold truncateUrl. rewrite H1. now apply Z.leb_le.
  - destruct (Z.of_nat (length (strip_protocol url)) <=? maxLength)%Z eqn:H2.
    + unfold truncateUrl. rewrite H1, H2. now apply Z.leb_le.
    + apply Z.leb_gt in H1, H2.
      rewrite (truncateUrl_long url maxLength Hmax H2 H1).
      rewrite !length_app, length_firstn, length_skipn, str_length_dots.
      destruct (halves_nonnegative (maxLength - 3)) as [Hfloor Hceil]; [lia|].
      pose proof (halves_add_up (maxLength - 3)). lia.
Qed.

(** X13. For a limit of at least 3, [truncateUrl] never returns more than
    [maxLength] characters.  A URL that fits is returned as it is; one that
    fits without its protocol loses only the protocol; any other comes back
    exactly [maxLength] long: the first [floor((maxLength - 3) / 2)]
    characters of the protocol-less URL, three dots, and its last
    [ceil((maxLength - 3) / 2)] characters. *)
Theorem truncateUrl_fits (url : jsstring) (maxLength : Z) :
  (3 <= maxLength)%Z ->
  (Z.of_nat (length (truncateUrl url maxLength)) <= maxLength)%Z
  /\ ((Z.of_nat (length url) <= maxLength)%Z ->
      truncateUrl url maxLength = url)
  /\ ((maxLength < Z.of_nat (length url))%Z ->
      (Z.of_nat (length (strip_protocol url)) <= maxLength)%Z ->
      truncateUrl url maxLength = strip_protocol url)
  /\ ((maxLength < Z.of_nat (length (strip_protocol url)))%Z ->
      (maxLength < Z.of_nat (length url))%Z ->
      Z.of_nat (length (truncateUrl url maxLength)) = maxLength
      /\ truncateUrl url maxLength =
           firstn (Z.to_nat (floor_half (maxLength - 3))) (strip_protocol url)
           ++ str "..."
           ++ skipn (length (strip_protocol url)
                     - Z.to_nat (ceil_half (maxLength - 3)))
                (strip_protocol url)).
Proof.
  intros Hmax. split; [apply truncateUrl_length, Hmax|]. split; [|split].
  - intros Hfit. unfold truncateUrl.
    apply Z.leb_le in Hfit. now rewrite Hfit.
  - intros Hlong Hfit. unfold truncateUrl.
    apply Z.leb_gt in Hlong. apply Z.leb_le in Hfit. now rewrite Hlong, Hfit.
  - intros Hdisplay Hurl. split; [|apply truncateUrl_long; assumption].
    rewrite (truncateUrl_long url maxLength Hmax Hdisplay Hurl).
    rewrite !length_app, length_firstn, length_skipn, str_length_dots.
    destruct (halves_nonnegative (maxLength - 3)) as [Hfloor Hceil]; [lia|].
    pose proof (halves_add_up (maxLength - 3)). lia.
Qed.

(** X14. Truncating what is already truncated changes nothing. *)
Theorem truncateUrl_idempotent (url : jsstring) (maxLength : Z) :
  (3 <= maxLength)%Z ->
  truncateUrl (truncateUrl url maxLength) maxLength = truncateUrl url maxLength.
Proof.
  intros Hmax. pose proof (truncateUrl_length url maxLength Hmax) as Hfit.
  unfold truncateUrl at 1. apply Z.leb_le in Hfit. now rewrite Hfit.
Qed.

End Options.

Section OptionsWitnesses.
Import OptionsPage.

Lemma truncateUrl_fits_witness :
  (3 <= 50)%Z
  /\ (50 < Z.of_nat (length (strip_protocol long_url)))%Z
  /\ (50 < Z.of_nat (length long_url))%Z
  /\ Z.of_nat (length (truncateUrl long_url 50)) = 50%Z.
Proof.
  assert (Hmax : (3 <= 50)%Z) by lia.
  assert (Hdisplay : (50 < Z.of_nat (length (strip_protocol long_url)))%Z)
    by (vm_compute; reflexivity).
  assert (Hurl : (50 < Z.of_nat (length long_url))%Z)
    by (vm_compute; reflexivity).
  split; [exact Hmax|]. split; [exact Hdisplay|]. split; [exact Hurl|].
  destruct (truncateUrl_fits long_url 50 Hmax) as (_ & _ & _ & Hcut).
  exact (proj1 (Hcut Hdisplay Hurl)).
Defined.

Lemma truncateUrl_idempotent_witness :
  (3 <= 50)%Z
  /\ truncateUrl (truncateUrl long_url 50) 50 = truncateUrl long_url 50.
Proof.
  assert (Hmax : (3 <= 50)%Z) by lia.
  split; [exact Hmax | exact (truncateUrl_idempotent long_url 50 Hmax)].
Defined.

Lemma trimStart_starts_plain (s : jsstring) :
  starts_with_gap (trimStart s) = false \/ trimStart s = [].
Proof.
  induction s as [|c s IH]; [now right|]. simpl.
  destruct (is_white_space c) eqn:Hc; [exact IH|]. left. simpl. exact Hc.
Qed.

Lemma trimStart_empty (s : jsstring) :
  trimStart s = [] <-> forallb is_white_space s = true.
Proof.
  induction s as [|c s IH]; simpl; [tauto|].
  destruct (is_white_space c); simpl; [exact IH|].
  split; discriminate.
Qed.

Lemma trimStart_snoc_plain (a : jsstring) (c : code_unit) :
  is_white_space c = false -> trimStart (a ++ [c]) = trimStart a ++ [c].
Proof.
  intros Hc. induction a as [|d a IH]; simpl; [now rewrite Hc|].
  destruct (is_white_space d); [exact IH | reflexivity].
Qed.

Lemma trim_empty (s : jsstring) :
  trim s = [] <-> forallb is_white_space s = true.
Proof.
  rewrite <- trimStart_empty. unfold trim. split.
  - intros Hempty.
    destruct (trimStart_starts_plain s) as [Hstart|Hnil]; [|exact Hnil].
    destruct (trimStart s) as [|c t]; [reflexivity|].
    simpl in Hstart. exfalso.
    simpl rev in Hempty. rewrite (trimStart_snoc_plain _ c Hstart) in Hempty.
    rewrite rev_app_distr in Hempty. discriminate.
  - intros ->. reflexivity.
Qed.

Lemma trim_trimmed (s : jsstring) : trim s <> [] -> trimmed (trim s).
Proof.
  intros Hne. split; [exact Hne|]. unfold trim in *.
  destruct (trimStart_starts_plain s) as [Hstart|Hnil];
    [|rewrite Hnil in Hne; contradiction].
  destruct (trimStart s) as [|c t]; [contradiction|].
  simpl in Hstart. simpl rev. rewrite (trimStart_snoc_plain _ c Hstart).
  split.
  - rewrite rev_app_distr. simpl. exact Hstart.
  - unfold ends_in_gap. rewrite rev_involutive.
    destruct (trimStart_starts_plain (rev t)) as [Hend|Hnil].
    + destruct (trimStart (rev t)) as [|d u]; [discriminate|]. exact Hend.
    + rewrite Hnil. simpl. exact Hstart.
Qed.

(** X15. The options page never stores an empty key or one with white
    space around it: input that is empty or all white space is refused with
    an error and the store stays as it was; any other input is stored
    trimmed, and the other preferences are untouched. *)
Theorem options_page_stores_trimmed_key (input : jsstring) (s : Storage.sync) :
  match OptionsPage.saveApiKey input s with
  | (s', status_error _) =>
      s' = s /\ forallb is_white_space input = true
  | (s', status_success _) =>
      Storage.getApiKey s' = trim input
      /\ trimmed (trim input)
      /\ Storage.getDefaultSpeed s' = Storage.getDefaultSpeed s
      /\ Storage.getDefaultVoice s' = Storage.getDefaultVoice s
  end.
Proof.
  unfold OptionsPage.saveApiKey.
  destruct (trim input) as [|c key] eqn:Htrim.
  - split; [reflexivity | now apply trim_empty].
  - split; [reflexivity|]. split; [|split; reflexivity].
    rewrite <- Htrim. apply trim_trimmed. rewrite Htrim. discriminate.
Qed.

End OptionsWitnesses.

(* ================================================================== *)
(** * Text extraction in batches *)
(* ================================================================== *)

Section Batches.
Import Gemini.

Variable extractTextFromImage : jsstring -> settled.

Lemma all_fulfilled_map (batch : list jsstring) :
  Forall (fun image => is_fulfilled (extractTextFromImage image) = true) batch ->
  all_fulfilled (map extractTextFromImage batch)
  = Some (map (fun image => value_of (extractTextFromImage image)) batch).
Proof.
  induction 1 as [|image batch Himage _ IH]; [reflexivity|].
  simpl. destruct (extractTextFromImage image); [|discriminate].
  now rewrite IH.
Qed.

Lemma all_fulfilled_rejected (good rest : list jsstring) (bad : jsstring)
      (message : jsstring) :
  extractTextFromImage bad = rejected message ->
  all_fulfilled (map extractTextFromImage (good ++ bad :: rest)) = None
  /\ In message (rejections (map extractTextFromImage (good ++ bad :: rest))).
Proof.
  intros Hbad. induction good as [|image good [IHnone IHin]]; simpl.
  - rewrite Hbad. simpl. auto.
  - destruct (extractTextFromImage image); simpl; [|auto].
    rewrite IHnone. auto.
Qed.

Lemma slice_batch (images : list jsstring) (i : nat) :
  slice images i (i + batchSize) = firstn batchSize (skipn i images).
Proof. unfold slice. f_equal. lia. Qed.

Lemma skipn_next_batch (images : list jsstring) (i : nat) :
  skipn i images =
    firstn batchSize (skipn i images) ++ skipn (i + batchSize) images.
Proof.
  rewrite (Nat.add_comm i batchSize), <- skipn_skipn.
  symmetry. apply firstn_skipn.
Qed.

Lemma Forall_firstn {A : Type} (P : A -> Prop) (n : nat) (l : list A) :
  Forall P l -> Forall P (firstn n l).
Proof.
  revert n. induction l as [|x l IH]; intros [|n] Hall; simpl;
    try constructor; inversion Hall; subst; auto.
Qed.

Lemma Forall_skipn {A : Type} (P : A -> Prop) (n : nat) (l : list A) :
  Forall P l -> Forall P (skipn n l).
Proof.
  revert n. induction l as [|x l IH]; intros [|n] Hall; simpl; auto.
  inversion Hall; subst; auto.
Qed.

(** The loop from any point on, when every image still to come is
    answered. *)
Lemma batch_loop_fulfilled (images : list jsstring) (fuel : nat) :
  forall (i : nat) (results : list (option jsstring)) (called : list jsstring),
    length images - i < fuel ->
    Forall (fun image => is_fulfilled (extractTextFromImage image) = true)
           (skipn i images) ->
    batch_loop extractTextFromImage images fuel i results called =
      {| result :=
           resolved
             (results
              ++ map (fun image => value_of (extractTextFromImage image))
                   (skipn i images));
         requested := called ++ skipn i images |}.
Proof.
  induction fuel as [|fuel IH]; intros i results called Hfuel Hall; [lia|].
  simpl batch_loop. destruct (i <? length images) eqn:Hi.
  - apply Nat.ltb_lt in Hi. rewrite slice_batch.
    rewrite (all_fulfilled_map _ (Forall_firstn _ batchSize _ Hall)).
    rewrite IH.
    + rewrite <- !app_assoc, <- map_app, <- skipn_next_batch. reflexivity.
    + unfold batchSize. lia.
    + rewrite (Nat.add_comm i batchSize), <- skipn_skipn.
      apply Forall_skipn, Hall.
  - apply Nat.ltb_ge in Hi. rewrite skipn_all2 by exact Hi.
    simpl. now rewrite !app_nil_r.
Qed.

(** X16. When every image is answered, [batchExtractText] resolves with
    one text per image, in the order of the images, and has called
    [extractTextFromImage] once for each image, in that order: cutting the
    work into batches of five shows in neither. *)
Theorem batchExtractText_in_order (images : list jsstring) :
  Forall (fun image => is_fulfilled (extractTextFromImage image) = true) images ->
  batchExtractText extractTextFromImage images =
    {| result :=
         resolved (map (fun image => value_of (extractTextFromImage image))
                     images);
       requested := images |}.
Proof.
  intros Hall. unfold batchExtractText.
  rewrite batch_loop_fulfilled; [reflexivity | lia | exact Hall].
Qed.

Lemma firstn_add_skipn {A : Type} (a b : nat) (l : list A) :
  firstn (a + b) l = firstn a l ++ firstn b (skipn a l).
Proof.
  revert l. induction a as [|a IH]; intros [|x l]; simpl;
    try reflexivity; [now rewrite firstn_nil | now rewrite IH].
Qed.

(** The loop from any point on, when the first image that is not answered
    comes after [good] answered ones. *)
Lemma batch_loop_rejected (images : list jsstring) (fuel : nat) :
  forall (i : nat) (results : list (option jsstring)) (called : list jsstring)
         (good rest : list jsstring) (bad message : jsstring),
    length images - i < fuel ->
    skipn i images = good ++ bad :: rest ->
    Forall (fun image => is_fulfilled (extractTextFromImage image) = true) good ->
    extractTextFromImage bad = rejected message ->
    exists messages,
      batch_loop extractTextFromImage images fuel i results called =
        {| result := failed messages;
           requested :=
             called
             ++ firstn (batchSize * (length good / batchSize + 1))
                  (skipn i images) |}
      /\ In message messages.
Proof.
  induction fuel as [|fuel IH];
    intros i results called good rest bad message Hfuel Hcut Hgood Hbad; [lia|].
  simpl batch_loop.
  assert (Hi : i < length images).
  { destruct (Nat.lt_ge_cases i (length images)) as [H|H]; [exact H|].
    rewrite skipn_all2 in Hcut by exact H. destruct good; discriminate. }
  apply Nat.ltb_lt in Hi as Hi'. rewrite Hi', slice_batch.
  destruct (Nat.lt_ge_cases (length good) batchSize) as [Hshort|Hlong].
  - (* the rejected image is in this batch *)
    rewrite (Nat.div_small _ _ Hshort). simpl Nat.add.
    rewrite Nat.mul_1_r. rewrite Hcut.
    rewrite firstn_app.
    rewrite (firstn_all2 good) by lia.
    destruct (batchSize - length good) as [|k] eqn:Hk; [lia|].
    simpl firstn at 1.
    destruct (all_fulfilled_rejected good (firstn k rest) bad message Hbad)
      as [Hnone Hin].
    rewrite Hnone. eexists. split; [reflexivity | exact Hin].
  - (* this batch is answered in full *)
    assert (Hbatch : firstn batchSize (skipn i images) = firstn batchSize good).
    { rewrite Hcut, firstn_app.
      replace (batchSize - length good) with 0 by lia.
      simpl. now rewrite app_nil_r. }
    rewrite Hbatch.
    rewrite (all_fulfilled_map _ (Forall_firstn _ batchSize _ Hgood)).
    destruct (IH (i + batchSize)
                (results ++ map (fun image => value_of (extractTextFromImage image))
                              (firstn batchSize good))
                (called ++ firstn batchSize good)
                (skipn batchSize good) rest bad message) as (messages & Hloop & Hin).
    + unfold batchSize. lia.
    + rewrite (Nat.add_comm i batchSize), <- skipn_skipn, Hcut, skipn_app.
      replace (batchSize - length good) with 0 by lia. reflexivity.
    + apply Forall_skipn, Hgood.
    + exact Hbad.
    + exists messages. split; [|exact Hin]. rewrite Hloop. f_equal.
      rewrite <- app_assoc. f_equal.
      rewrite length_skipn.
      replace (batchSize * (length good / batchSize + 1))
        with (batchSize
              + batchSize * ((length good - batchSize) / batchSize + 1)).
      * rewrite firstn_add_skipn, Hbatch.
        rewrite skipn_skipn, (Nat.add_comm batchSize i). reflexivity.
      * unfold batchSize in *.
        pose proof (Nat.div_mod_eq (length good) 5).
        pose proof (Nat.div_mod_eq (length good - 5) 5).
        pose proof (Nat.mod_upper_bound (length good) 5).
        pose proof (Nat.mod_upper_bound (length good - 5) 5).
        lia.
Qed.

(** X17. When an image is not answered, [batchExtractText] fails: the
    texts of the batches before are dropped, the message of the failing
    image is among those of its batch, and [extractTextFromImage] was
    called for every image up to the end of that batch and for none
    after it. *)
Theorem batchExtractText_stops_at_failing_batch
    (good rest : list jsstring) (bad message : jsstring) :
  Forall (fun image => is_fulfilled (extractTextFromImage image) = true) good ->
  extractTextFromImage bad = rejected message ->
  exists messages,
    batchExtractText extractTextFromImage (good ++ bad :: rest) =
      {| result := failed messages;
         requested :=
           firstn (batchSize * (length good / batchSize + 1))
             (good ++ bad :: rest) |}
    /\ In message messages.
Proof.
  intros Hgood Hbad. unfold batchExtractText.
  destruct (batch_loop_rejected (good ++ bad :: rest)
              (S (length (good ++ bad :: rest))) 0 [] [] good rest bad message)
    as (messages & Hloop & Hin); try assumption; [lia | reflexivity |].
  exists messages. split; [exact Hloop | exact Hin].
Qed.

End Batches.

Section BatchWitnesses.
Import Gemini.

Lemma batchExtractText_in_order_witness :
  Forall (fun image => is_fulfilled (answers_all image) = true) seven_images
  /\ result (batchExtractText answers_all seven_images)
     = resolved (map (fun image => Some image) seven_images).
Proof.
  assert (Hall : Forall (fun image => is_fulfilled (answers_all image) = true)
                        seven_images)
    by (repeat constructor).
  split; [exact Hall|].
  rewrite (batchExtractText_in_order answers_all seven_images Hall).
  reflexivity.
Defined.

Lemma batchExtractText_stops_at_failing_batch_witness :
  Forall (fun image => is_fulfilled (answers_http_only image) = true)
         seven_images
  /\ answers_http_only (str "blob:x") = rejected (str "Invalid base64 image data")
  /\ exists messages,
       batchExtractText answers_http_only
         (seven_images ++ str "blob:x" :: seven_images)
       = {| result := failed messages;
            requested :=
              firstn 10 (seven_images ++ str "blob:x" :: seven_images) |}.
Proof.
  assert (Hgood : Forall (fun image => is_fulfilled (answers_http_only image) = true)
                         seven_images)
    by (repeat constructor).
  assert (Hbad : answers_http_only (str "blob:x")
                 = rejected (str "Invalid base64 image data")) by reflexivity.
  split; [exact Hgood|]. split; [exact Hbad|].
  destruct (batchExtractText_stops_at_failing_batch answers_http_only
              seven_images seven_images (str "blob:x")
              (str "Invalid base64 image data") Hgood Hbad)
    as (messages & Hrun & _).
  exists messages. exact Hrun.
Defined.

Lemma no_key_no_request
    (api : jsstring -> jsstring -> settled) (store : Storage.sync)
    (images : list jsstring) :
  Storage.getApiKey store = [] ->
  handleExtractText api store images =
    {| result :=
         failed [str "Gemini API key is not set. Please set it in the options page."];
       requested := [] |}.
Proof. intros Hkey. unfold handleExtractText. now rewrite Hkey. Qed.

(** X18. The key the background script hands to the API is the one the
    options page stored: after a save that was accepted,
    [handleExtractText] runs the batches with exactly the trimmed input as
    key; after a save that was refused it does what it did before; and
    after the page has reset the preferences, or when no key was ever
    saved, it fails with the message that asks for a key and calls
    [extractTextFromImage] for no image. *)
Theorem key_from_options_page_reaches_api
    (api : jsstring -> jsstring -> settled) (input : jsstring)
    (s : Storage.sync) (l : Storage.local) (images : list jsstring) :
  match OptionsPage.saveApiKey input s with
  | (s', OptionsPage.status_success _) =>
      handleExtractText api s' images = batchExtractText (api (trim input)) images
  | (s', OptionsPage.status_error _) =>
      handleExtractText api s' images = handleExtractText api s images
  end
  /\ handleExtractText api (fst (OptionsPage.resetAllPreferences s l)) images =
       {| result :=
            failed [str "Gemini API key is not set. Please set it in the options page."];
          requested := [] |}
  /\ handleExtractText api Storage.unset images =
       {| result :=
            failed [str "Gemini API key is not set. Please set it in the options page."];
          requested := [] |}.
Proof.
  split; [|split; apply no_key_no_request; reflexivity].
  unfold OptionsPage.saveApiKey.
  destruct (trim input) as [|c key]; reflexivity.
Qed.

Lemma startsWith_app (prefix rest : jsstring) :
  startsWith prefix (prefix ++ rest) = true.
Proof.
  induction prefix as [|p prefix IH]; [reflexivity|].
  simpl. now rewrite N.eqb_refl, IH.
Qed.

Lemma startsWith_split (prefix s : jsstring) :
  startsWith prefix s = true -> s = prefix ++ skipn (length prefix) s.
Proof.
  revert s. induction prefix as [|p prefix IH]; intros s Hs; [reflexivity|].
  destruct s as [|c s]; [discriminate|]. simpl in Hs.
  apply andb_true_iff in Hs as [Hpc Hrest]. apply N.eqb_eq in Hpc. subst c.
  simpl. f_equal. apply IH, Hrest.
Qed.

Lemma strip_prefix_app (prefix rest : jsstring) :
  strip_prefix prefix (prefix ++ rest) = Some rest.
Proof.
  unfold strip_prefix. rewrite startsWith_app. f_equal.
  rewrite skipn_app, Nat.sub_diag, skipn_all. reflexivity.
Qed.

Lemma strip_prefix_some (prefix s rest : jsstring) :
  strip_prefix prefix s = Some rest -> s = prefix ++ rest.
Proof.
  unfold strip_prefix. destruct (startsWith prefix s) eqn:Hs; [|discriminate].
  intros [= <-]. apply startsWith_split, Hs.
Qed.

Lemma until_semicolon_split (s taken left : jsstring) :
  until_semicolon s = (taken, left) ->
  s = taken ++ left
  /\ ~ In 59%N taken
  /\ match left with [] => True | c :: _ => c = 59%N end.
Proof.
  revert taken left. induction s as [|c s IH]; intros taken left Hs.
  - inversion Hs. auto.
  - simpl in Hs. destruct (c =? 59)%N eqn:Hc.
    + inversion Hs; subst. apply N.eqb_eq in Hc. auto.
    + destruct (until_semicolon s) as [taken' left'].
      inversion Hs; subst. destruct (IH taken' left eq_refl) as (-> & Hno & Hl).
      split; [reflexivity|]. split; [|exact Hl].
      intros [Heq|Hin]; [|contradiction].
      subst c. discriminate.
Qed.

Lemma until_semicolon_app (taken rest : jsstring) :
  ~ In 59%N taken ->
  until_semicolon (taken ++ 59%N :: rest) = (taken, 59%N :: rest).
Proof.
  intros Hno. induction taken as [|c taken IH]; [reflexivity|].
  simpl. destruct (c =? 59)%N eqn:Hc.
  - apply N.eqb_eq in Hc. exfalso. apply Hno. now left.
  - rewrite IH; [reflexivity|]. intros Hin. apply Hno. now right.
Qed.

(** X19. The pattern [/^data:([^;]+);base64,(.+)$/] accepts exactly the
    strings [data:<mime>;base64,<data>] in which the mime type is not empty
    and has no [;] and the data is not empty and has no line terminator,
    and its groups are that mime type and that data.  A data URL with a
    parameter before [;base64], or with a line break in its data, is not
    accepted. *)
Theorem match_data_url_exact (imageData mimeType base64 : jsstring) :
  match_data_url imageData = Some (mimeType, base64)
  <->
  imageData = str "data:" ++ mimeType ++ str ";base64," ++ base64
  /\ mimeType <> []
  /\ ~ In 59%N mimeType
  /\ base64 <> []
  /\ forallb (fun c => negb (is_line_terminator c)) base64 = true.
Proof.
  unfold match_data_url. split.
  - destruct (strip_prefix (str "data:") imageData) as [rest|] eqn:Hdata;
      [|discriminate].
    apply strip_prefix_some in Hdata.
    destruct (until_semicolon rest) as [mime left] eqn:Hmime.
    apply until_semicolon_split in Hmime as (Hrest & Hno & _).
    destruct mime as [|m mime]; [discriminate|].
    destruct (strip_prefix (str ";base64,") left) as [data|] eqn:Hbase;
      [|discriminate].
    apply strip_prefix_some in Hbase.
    destruct data as [|d data]; [discriminate|].
    destruct (forallb (fun c => negb (is_line_terminator c)) (d :: data))
      eqn:Hline; [|discriminate].
    intros [= <- <-]. subst imageData rest left.
    repeat split; try discriminate; assumption.
  - intros (-> & Hmime & Hno & Hdata & Hline).
    rewrite strip_prefix_app.
    change (str ";base64," ++ base64)
      with (59%N :: (str "base64," ++ base64)).
    rewrite (until_semicolon_app mimeType _ Hno).
    destruct mimeType as [|m mime]; [contradiction|].
    change (59%N :: (str "base64," ++ base64))
      with (str ";base64," ++ base64).
    rewrite strip_prefix_app.
    destruct base64 as [|d data]; [contradiction|].
    now rewrite Hline.
Qed.

End BatchWitnesses.

(* ================================================================== *)
(** * Images and their selection *)
(* ================================================================== *)

Section Selection.
Import Reader.

Lemma indexOf_bounds (img : Img) (l : list Img) :
  (-1 <= indexOf img l < Z.of_nat (length l))%Z.
Proof.
  induction l as [|x l IH]; simpl; [lia|].
  destruct (Nat.eqb (node x) (node img)); [lia|].
  destruct (indexOf img l <? 0)%Z eqn:Hneg; [lia|].
  apply Z.ltb_ge in Hneg. lia.
Qed.

Lemma indexOf_absent (img : Img) (l : list Img) :
  indexOf img l = (-1)%Z <-> ~ In (node img) (map node l).
Proof.
  induction l as [|x l IH]; simpl; [tauto|].
  pose proof (indexOf_bounds img l) as Hb.
  destruct (Nat.eqb (node x) (node img)) eqn:Hx.
  - apply Nat.eqb_eq in Hx. split; [discriminate | intros H; exfalso; auto].
  - apply Nat.eqb_neq in Hx.
    destruct (indexOf img l <? 0)%Z eqn:Hneg.
    + apply Z.ltb_lt in Hneg.
      assert (Hminus : indexOf img l = (-1)%Z) by lia.
      apply IH in Hminus. split; [intros _ [H|H]; auto | reflexivity].
    + apply Z.ltb_ge in Hneg. split; [lia|].
      intros Hnot. exfalso.
      assert (Hminus : indexOf img l = (-1)%Z) by (apply IH; tauto). lia.
Qed.

(** A found element: where it stands and what stands before it. *)
Lemma indexOf_found (img : Img) (l : list Img) :
  indexOf img l <> (-1)%Z ->
  exists before x after,
    l = before ++ x :: after
    /\ node x = node img
    /\ ~ In (node img) (map node before)
    /\ indexOf img l = Z.of_nat (length before).
Proof.
  induction l as [|x l IH]; simpl; [intros H; contradiction|].
  destruct (Nat.eqb (node x) (node img)) eqn:Hx.
  - apply Nat.eqb_eq in Hx. intros _. exists [], x, l. simpl. auto.
  - apply Nat.eqb_neq in Hx.
    destruct (indexOf img l <? 0)%Z eqn:Hneg; [intros H; contradiction|].
    apply Z.ltb_ge in Hneg. intros _.
    destruct IH as (before & y & after & -> & Hy & Hno & Hindex); [lia|].
    exists (x :: before), y, after. simpl.
    repeat split; auto; [tauto | lia].
Qed.

Lemma splice1_at {A : Type} (before : list A) (x : A) (after : list A) :
  splice1 (before ++ x :: after) (Z.of_nat (length before)) = before ++ after.
Proof.
  unfold splice1.
  destruct (Z.of_nat (length before) <? 0)%Z eqn:Hneg;
    [apply Z.ltb_lt in Hneg; lia|].
  rewrite length_app. simpl length.
  replace (Z.to_nat (Z.min (Z.of_nat (length before))
                       (Z.of_nat (length before + S (length after)))))
    with (length before) by lia.
  rewrite firstn_app, Nat.sub_diag, firstn_all. simpl firstn.
  rewrite app_nil_r. f_equal.
  rewrite skipn_app, skipn_all2 by lia.
  replace (S (length before) - length before) with 1 by lia. reflexivity.
Qed.

Lemma set_border_same (n : nat) (b : bool) (f : nat -> bool) :
  set_border n b f n = b.
Proof. unfold set_border. now rewrite Nat.eqb_refl. Qed.

Lemma set_border_other (n k : nat) (b : bool) (f : nat -> bool) :
  k <> n -> set_border n b f k = f k.
Proof.
  intros Hk. unfold set_border. apply Nat.eqb_neq in Hk. now rewrite Hk.
Qed.

Lemma NoDup_snoc {A : Type} (l : list A) (x : A) :
  NoDup l -> ~ In x l -> NoDup (l ++ [x]).
Proof.
  intros Hl Hx. rewrite <- (rev_involutive (l ++ [x])). apply NoDup_rev.
  rewrite rev_app_distr. simpl.
  constructor; [rewrite <- in_rev; exact Hx | apply NoDup_rev, Hl].
Qed.

(** One click on an image while the reader is active. *)
Lemma toggle_active (img : Img) (r : ImageTextReader) :
  isActive r = true ->
  selection_distinct r ->
  borders_show_selection r ->
  let r' := toggleImageSelection img r in
  selection_distinct r'
  /\ borders_show_selection r'
  /\ isActive r' = true
  /\ (In (node img) (map node (selectedImages r'))
      <-> ~ In (node img) (map node (selectedImages r)))
  /\ (forall n, n <> node img ->
        (In n (map node (selectedImages r'))
         <-> In n (map node (selectedImages r))))
  /\ (~ In (node img) (map node (selectedImages r)) ->
      selectedImages r' = selectedImages r ++ [img]).
Proof.
  intros Hactive Hdistinct Hborders. cbv zeta.
  unfold toggleImageSelection. rewrite Hactive. simpl negb. cbv iota.
  unfold selection_distinct, borders_show_selection in *.
  destruct (indexOf img (selectedImages r) =? -1)%Z eqn:Hindex.
  - apply Z.eqb_eq in Hindex. apply indexOf_absent in Hindex. simpl.
    unfold push. rewrite !map_app. simpl map.
    split; [apply NoDup_snoc; assumption|].
    split.
    { intros n. rewrite in_app_iff. simpl.
      destruct (Nat.eq_dec n (node img)) as [->|Hn].
      - rewrite set_border_same. tauto.
      - rewrite (set_border_other _ _ _ _ Hn), Hborders.
        split; [tauto | intros [H|[H|[]]]; [exact H | congruence]]. }
    split; [first [exact Hactive | reflexivity]|]. split.
    { rewrite in_app_iff. simpl. tauto. }
    split; [|reflexivity].
    intros n Hn. rewrite in_app_iff. simpl.
    split; [intros [H|[H|[]]]; [exact H | congruence] | tauto].
  - apply Z.eqb_neq in Hindex.
    destruct (indexOf_found img (selectedImages r) Hindex)
      as (before & x & after & Hsel & Hx & Hno & Hat).
    simpl. rewrite Hat, Hsel, splice1_at.
    rewrite Hsel in Hdistinct, Hborders.
    rewrite map_app in *. simpl map in *. rewrite Hx in *.
    pose proof (NoDup_remove_1 _ _ _ Hdistinct) as Hrest.
    pose proof (NoDup_remove_2 _ _ _ Hdistinct) as Hgone.
    split; [exact Hrest|]. split.
    { intros n. destruct (Nat.eq_dec n (node img)) as [->|Hn].
      - rewrite set_border_same. split; [discriminate | contradiction].
      - rewrite (set_border_other _ _ _ _ Hn), Hborders, !in_app_iff. simpl.
        split; [intros [H|[H|H]]; [tauto | congruence | tauto] | tauto]. }
    split; [first [exact Hactive | reflexivity]|]. split.
    { split; [contradiction|]. intros Hnot. exfalso. apply Hnot.
      rewrite ?map_app, ?in_app_iff. simpl. rewrite ?Hx. tauto. }
    split.
    { intros n Hn. rewrite ?map_app, ?in_app_iff. simpl. rewrite ?Hx.
      split; [tauto | intros [H|[H|H]]; [tauto | congruence | tauto]]. }
    intros Hnot. exfalso. apply Hnot.
    rewrite ?map_app, ?in_app_iff. simpl. rewrite ?Hx. tauto.
Qed.

(** X20. Clicking an image while the reader is active selects it if it
    was not selected and deselects it if it was, and touches no other
    image; the selection never holds an image twice, and the images with
    the selection border stay exactly the selected ones.  While the reader
    is not active a click changes nothing. *)
Theorem click_toggles_one_image (img : Img) (r : ImageTextReader) :
  selection_distinct r ->
  borders_show_selection r ->
  let r' := toggleImageSelection img r in
  selection_distinct r'
  /\ borders_show_selection r'
  /\ if isActive r then
       (In (node img) (map node (selectedImages r'))
        <-> ~ In (node img) (map node (selectedImages r)))
       /\ (forall n, n <> node img ->
             (In n (map node (selectedImages r'))
              <-> In n (map node (selectedImages r))))
     else r' = r.
Proof.
  intros Hdistinct Hborders. cbv zeta.
  destruct (isActive r) eqn:Hactive.
  - destruct (toggle_active img r Hactive Hdistinct Hborders)
      as (H1 & H2 & _ & H4 & H5 & _). auto.
  - unfold toggleImageSelection. rewrite Hactive. simpl. auto.
Qed.

(** One click on an image while the reader is active, whatever borders
    are drawn. *)
Lemma toggle_active_borders (img : Img) (r : ImageTextReader) :
  isActive r = true ->
  selection_distinct r ->
  let r' := toggleImageSelection img r in
  selection_distinct r'
  /\ isActive r' = true
  /\ (In (node img) (map node (selectedImages r'))
      <-> ~ In (node img) (map node (selectedImages r)))
  /\ (forall n, n <> node img ->
        (In n (map node (selectedImages r'))
         <-> In n (map node (selectedImages r))))
  /\ (~ In (node img) (map node (selectedImages r)) ->
      selectedImages r' = selectedImages r ++ [img])
  /\ (forall n, n <> node img -> border r' n = border r n)
  /\ (border r' (node img) = true
      <-> In (node img) (map node (selectedImages r'))).
Proof.
  intros Hactive Hdistinct. cbv zeta.
  unfold toggleImageSelection. rewrite Hactive. simpl negb. cbv iota.
  unfold selection_distinct in *.
  destruct (indexOf img (selectedImages r) =? -1)%Z eqn:Hindex.
  - apply Z.eqb_eq in Hindex. apply indexOf_absent in Hindex. simpl.
    unfold push. rewrite !map_app. simpl map.
    split; [apply NoDup_snoc; assumption|].
    split; [first [exact Hactive | reflexivity]|]. split.
    { rewrite in_app_iff. simpl. tauto. }
    split.
    { intros n Hn. rewrite in_app_iff. simpl.
      split; [intros [H|[H|[]]]; [exact H | congruence] | tauto]. }
    split; [reflexivity|]. split.
    { intros n Hn. apply set_border_other, Hn. }
    rewrite set_border_same, in_app_iff. simpl. tauto.
  - apply Z.eqb_neq in Hindex.
    destruct (indexOf_found img (selectedImages r) Hindex)
      as (before & x & after & Hsel & Hx & Hno & Hat).
    simpl. rewrite Hat, Hsel, splice1_at.
    rewrite Hsel in Hdistinct.
    rewrite map_app in *. simpl map in *. rewrite Hx in *.
    pose proof (NoDup_remove_1 _ _ _ Hdistinct) as Hrest.
    pose proof (NoDup_remove_2 _ _ _ Hdistinct) as Hgone.
    split; [exact Hrest|].
    split; [first [exact Hactive | reflexivity]|]. split.
    { split; [contradiction|]. intros Hnot. exfalso. apply Hnot.
      rewrite ?map_app, ?in_app_iff. simpl. rewrite ?Hx. tauto. }
    split.
    { intros n Hn. rewrite ?map_app, ?in_app_iff. simpl. rewrite ?Hx.
      split; [tauto | intros [H|[H|H]]; [tauto | congruence | tauto]]. }
    split.
    { intros Hnot. exfalso. apply Hnot.
      rewrite ?map_app, ?in_app_iff. simpl. rewrite ?Hx. tauto. }
    split.
    { intros n Hn. apply set_border_other, Hn. }
    rewrite set_border_same. split; [discriminate | contradiction].
Qed.

(** X21. While the reader is active and its selection holds no image
    twice, two clicks on the same image leave the same images selected, and
    the very same list if the image was not selected before; they leave the
    border of every other image as it was, and the clicked image has the
    border afterwards exactly when it is selected.  So the borders are as
    before exactly when the border of the clicked image showed its
    selection before the clicks; it does not after a new scan, which
    empties the selection and leaves the borders. *)
Theorem two_clicks_restore_selection (img : Img) (r : ImageTextReader) :
  isActive r = true ->
  selection_distinct r ->
  let r2 := toggleImageSelection img (toggleImageSelection img r) in
  (forall n, In n (map node (selectedImages r2))
             <-> In n (map node (selectedImages r)))
  /\ selection_distinct r2
  /\ (~ In (node img) (map node (selectedImages r)) ->
      selectedImages r2 = selectedImages r)
  /\ (forall n, n <> node img -> border r2 n = border r n)
  /\ (border r2 (node img) = true
      <-> In (node img) (map node (selectedImages r)))
  /\ ((forall n, border r2 n = border r n)
      <-> (border r (node img) = true
           <-> In (node img) (map node (selectedImages r))))
  /\ (borders_show_selection r ->
      borders_show_selection r2 /\ forall n, border r2 n = border r n).
Proof.
  intros Hactive Hdistinct. cbv zeta.
  destruct (toggle_active_borders img r Hactive Hdistinct)
    as (Hd1 & Ha1 & Hflip1 & Hkeep1 & Hpush1 & Hothers1 & _).
  set (r1 := toggleImageSelection img r) in *.
  destruct (toggle_active_borders img r1 Ha1 Hd1)
    as (Hd2 & _ & Hflip2 & Hkeep2 & _ & Hothers2 & Hown2).
  set (r2 := toggleImageSelection img r1) in *.
  assert (Hsame : forall n, In n (map node (selectedImages r2))
                            <-> In n (map node (selectedImages r))).
  { intros n. destruct (Nat.eq_dec n (node img)) as [->|Hn].
    - rewrite Hflip2, Hflip1.
      destruct (in_dec Nat.eq_dec (node img) (map node (selectedImages r)));
        tauto.
    - rewrite (Hkeep2 n Hn). apply Hkeep1, Hn. }
  assert (Hothers : forall n, n <> node img -> border r2 n = border r n).
  { intros n Hn. rewrite (Hothers2 n Hn). apply Hothers1, Hn. }
  assert (Hown : border r2 (node img) = true
                 <-> In (node img) (map node (selectedImages r))).
  { rewrite Hown2. apply Hsame. }
  assert (Hall : (forall n, border r2 n = border r n)
                 <-> (border r (node img) = true
                      <-> In (node img) (map node (selectedImages r)))).
  { split.
    - intros Heq. rewrite <- (Heq (node img)). exact Hown.
    - intros Hshown n. destruct (Nat.eq_dec n (node img)) as [->|Hn];
        [|apply Hothers, Hn].
      destruct (border r2 (node img)) eqn:H2, (border r (node img)) eqn:H0;
        try reflexivity.
      + assert (Habsurd : false = true) by tauto. discriminate.
      + assert (Habsurd : false = true) by tauto. discriminate. }
  split; [exact Hsame|]. split; [exact Hd2|]. split.
  { intros Hnot. specialize (Hpush1 Hnot).
    unfold r2, toggleImageSelection. rewrite Ha1. simpl negb. cbv iota.
    assert (Hin : In (node img) (map node (selectedImages r1))) by tauto.
    destruct (indexOf img (selectedImages r1) =? -1)%Z eqn:Hindex.
    { apply Z.eqb_eq, indexOf_absent in Hindex. contradiction. }
    apply Z.eqb_neq in Hindex.
    destruct (indexOf_found img (selectedImages r1) Hindex)
      as (before & x & after & Hsel & Hx & Hno & Hat).
    simpl. rewrite Hat, Hsel, splice1_at.
    rewrite Hpush1 in Hsel.
    (* the found element is the one pushed last *)
    destruct after as [|y after].
    + apply app_inj_tail in Hsel as [-> _]. now rewrite app_nil_r.
    + exfalso. apply Hnot.
      assert (Hlen : selectedImages r = before ++ x :: removelast (y :: after)).
      { apply (f_equal (@removelast Img)) in Hsel.
        rewrite removelast_last in Hsel. rewrite Hsel.
        change (before ++ x :: y :: after) with (before ++ (x :: y :: after)).
        rewrite removelast_app by discriminate. reflexivity. }
      rewrite Hlen, map_app, in_app_iff. simpl. rewrite Hx. tauto. }
  split; [exact Hothers|]. split; [exact Hown|]. split; [exact Hall|].
  intros Hborders.
  assert (Hrestored : forall n, border r2 n = border r n)
    by (apply Hall, Hborders).
  split; [|exact Hrestored].
  intros n. rewrite Hrestored, Hsame. apply Hborders.
Qed.

End Selection.

Section Reading.
Import Reader.

Lemma active_reader_distinct : selection_distinct active_reader.
Proof. constructor. Qed.

Lemma active_reader_borders : borders_show_selection active_reader.
Proof. intros n. simpl. split; [discriminate | contradiction]. Qed.

Lemma click_toggles_one_image_witness :
  selection_distinct active_reader
  /\ borders_show_selection active_reader
  /\ selectedImages (toggleImageSelection banner active_reader) = [banner]
  /\ selection_distinct (toggleImageSelection banner active_reader).
Proof.
  split; [exact active_reader_distinct|].
  split; [exact active_reader_borders|].
  split; [reflexivity|].
  exact (proj1 (click_toggles_one_image banner active_reader
                  active_reader_distinct active_reader_borders)).
Defined.

Lemma two_clicks_restore_selection_witness :
  isActive rescanned_reader = true
  /\ selection_distinct rescanned_reader
  /\ selectedImages rescanned_reader = []
  /\ border rescanned_reader (node banner) = true
  /\ selectedImages
       (toggleImageSelection banner
          (toggleImageSelection banner rescanned_reader)) = []
  /\ ~ border
         (toggleImageSelection banner
            (toggleImageSelection banner rescanned_reader)) (node banner)
       = true.
Proof.
  assert (Hactive : isActive rescanned_reader = true) by reflexivity.
  assert (Hdistinct : selection_distinct rescanned_reader) by constructor.
  assert (Hnot : ~ In (node banner)
                     (map node (selectedImages rescanned_reader)))
    by (intros []).
  split; [exact Hactive|]. split; [exact Hdistinct|].
  split; [reflexivity|]. split; [reflexivity|].
  destruct (two_clicks_restore_selection banner rescanned_reader Hactive
              Hdistinct) as (_ & _ & Hsame & _ & Hown & _).
  split; [exact (Hsame Hnot)|].
  intros Hborder. apply Hnot, Hown, Hborder.
Defined.

Lemma large_is_visible (q : Q) : Qle_bool 50 q = true -> Qle_bool q 0 = false.
Proof.
  intros Hlarge. apply Qle_bool_iff in Hlarge.
  destruct (Qle_bool q 0) eqn:Hsmall; [|reflexivity].
  apply Qle_bool_iff in Hsmall. exfalso.
  pose proof (Qle_trans _ _ _ Hlarge Hsmall) as Habsurd.
  apply Qle_bool_iff in Habsurd. discriminate.
Qed.

Lemma likely_text_large (img : Img) :
  likely_text img = Qle_bool 50 (width img) && Qle_bool 50 (height img).
Proof.
  unfold likely_text.
  destruct (Qle_bool 50 (width img)) eqn:Hw;
    [|now rewrite andb_false_r || (simpl; now rewrite andb_false_r)].
  destruct (Qle_bool 50 (height img)) eqn:Hh; [|now rewrite !andb_false_r].
  now rewrite (large_is_visible _ Hw), (large_is_visible _ Hh).
Qed.

(** X22. [scanImages()] keeps the images of the page that are at least
    50 by 50, in page order, and returns their number; the test for
    visibility rules out nothing more.  It empties the selection but leaves
    the borders on the page as they are, so [readSelectedImages()] right
    after a scan only raises the alert and sends nothing to the background
    script. *)
Theorem scan_then_read_selected (page : list Img) (r : ImageTextReader) :
  let r' := fst (scanImages page r) in
  images r' =
    filter (fun img => Qle_bool 50 (width img) && Qle_bool 50 (height img)) page
  /\ snd (scanImages page r) = length (images r')
  /\ selectedImages r' = []
  /\ (forall n, border r' n = border r n)
  /\ snd (readSelectedImages r') =
       alert (str "No images selected. Please click on images to select them.")
  /\ selectedImages (fst (readSelectedImages r')) = []
  /\ isActive (fst (readSelectedImages r')) = true.
Proof.
  cbv zeta. simpl. repeat split.
  apply filter_ext. exact likely_text_large.
Qed.

Lemma clear_borders (sel : list Img) :
  forall (b : nat -> bool) (n : nat),
    fold_left (fun b img => set_border (node img) false b) sel b n =
      if in_dec Nat.eq_dec n (map node sel) then false else b n.
Proof.
  induction sel as [|img sel IH]; intros b n; [reflexivity|].
  simpl fold_left. rewrite IH. simpl map.
  destruct (in_dec Nat.eq_dec n (map node sel)) as [Hin|Hout];
    destruct (in_dec Nat.eq_dec n (node img :: map node sel)) as [Hin'|Hout'];
    try reflexivity.
  - exfalso. apply Hout'. now right.
  - destruct Hin' as [<-|Hin']; [apply set_border_same | contradiction].
  - apply set_border_other. intros ->. apply Hout'. now left.
Qed.

(** X23. [stopReading()] leaves nothing behind: no image selected, no
    selection border anywhere, no overlay, the speech controller stopped
    and not playing, the reader inactive, so that further clicks on images
    do nothing. *)
Theorem stopReading_clears_everything (r : ImageTextReader) :
  borders_show_selection r ->
  let r' := stopReading r in
  selectedImages r' = []
  /\ (forall n, border r' n = false)
  /\ overlay r' = None
  /\ isActive r' = false
  /\ TTS.utterance (TTS.this (ttsManager r')) = None
  /\ TTS.isCurrentlyPlaying (ttsManager r') = false
  /\ forall img, toggleImageSelection img r' = r'.
Proof.
  intros Hborders. cbv zeta. unfold stopReading. simpl.
  split; [reflexivity|]. split.
  - intros n. rewrite clear_borders.
    destruct (in_dec Nat.eq_dec n (map node (selectedImages r))) as [Hin|Hout];
      [reflexivity|].
    destruct (border r n) eqn:Hb; [|reflexivity].
    apply Hborders in Hb. contradiction.
  - destruct (ttsManager r). repeat split.
Qed.

Lemma stopReading_clears_everything_witness :
  borders_show_selection (toggleImageSelection banner active_reader)
  /\ forall n, border (stopReading (toggleImageSelection banner active_reader)) n
               = false.
Proof.
  assert (Hborders :
    borders_show_selection (toggleImageSelection banner active_reader)).
  { intros n. simpl. unfold set_border.
    destruct (Nat.eqb n 1) eqn:Hn.
    - apply Nat.eqb_eq in Hn. subst n. split; [now left | reflexivity].
    - apply Nat.eqb_neq in Hn.
      split; [discriminate | intros [H|[]]; congruence]. }
  split; [exact Hborders|].
  destruct (stopReading_clears_everything
              (toggleImageSelection banner active_reader) Hborders)
    as (_ & Hnone & _).
  exact Hnone.
Defined.

Lemma blank_or_plain (s : jsstring) :
  existsb plain s = negb (forallb is_white_space s).
Proof.
  induction s as [|c s IH]; [reflexivity|]. simpl. rewrite IH.
  unfold plain. now destruct (is_white_space c).
Qed.

Lemma worth_reading_plain (text : jsstring) :
  worth_reading (Some text) = existsb plain text.
Proof.
  rewrite blank_or_plain. destruct text as [|c s]; [reflexivity|].
  unfold worth_reading.
  destruct (trim (c :: s)) as [|d t] eqn:Htrim.
  - apply trim_empty in Htrim. now rewrite Htrim.
  - destruct (forallb is_white_space (c :: s)) eqn:Hall; [|reflexivity].
    apply trim_empty in Hall. congruence.
Qed.

Lemma texts_worth_reading_in (texts : list (option jsstring)) (text : jsstring) :
  In text (texts_worth_reading texts)
  <-> In (Some text) texts /\ existsb plain text = true.
Proof.
  induction texts as [|t texts IH]; simpl; [tauto|].
  destruct t as [s|].
  - rewrite worth_reading_plain.
    destruct (existsb plain s) eqn:Hs.
    + simpl. rewrite IH. split.
      * intros [->|[Hin Hplain]]; auto.
      * intros [[Heq|Hin] Hplain]; [inversion Heq; auto | auto].
    + rewrite IH. split.
      * intros [Hin Hplain]; auto.
      * intros [[Heq|Hin] Hplain]; [inversion Heq; congruence | auto].
  - simpl. rewrite IH. split.
    + intros [Hin Hplain]; auto.
    + intros [[Heq|Hin] Hplain]; [discriminate | auto].
Qed.

Lemma plain_text_has_word (s : jsstring) :
  existsb plain s = true ->
  exists word, In word (split_ws s) /\ is_word word = true.
Proof.
  induction s as [|c rest IH]; [discriminate|]. intros Hsome.
  destruct (is_white_space c) eqn:Hc.
  - simpl in Hsome. unfold plain at 1 in Hsome. rewrite Hc in Hsome.
    simpl in Hsome. destruct (IH Hsome) as (word & Hin & Hword).
    exists word. split; [|exact Hword].
    destruct rest as [|c' rest']; [discriminate|].
    rewrite (split_ws_space_cons c c' rest' Hc).
    destruct (is_white_space c'); [exact Hin | now right].
  - pose proof (split_ws_pieces_plain (c :: rest)) as Hplain.
    rewrite (split_ws_letter c rest Hc) in *.
    destruct (split_ws rest) as [|piece pieces].
    + exists [c]. split; [now left|]. simpl. now rewrite Hc.
    + exists (c :: piece). split; [now left|].
      inversion Hplain as [|? ? Hpiece _]; subst. exact Hpiece.
Qed.

Lemma texts_worth_reading_filter (texts : list (option jsstring)) :
  map Some (texts_worth_reading texts) =
    filter (fun t => match t with
                     | Some s => existsb plain s
                     | None => false
                     end) texts.
Proof.
  induction texts as [|t texts IH]; [reflexivity|].
  cbn [texts_worth_reading filter].
  destruct t as [s|]; [|exact IH].
  rewrite worth_reading_plain.
  destruct (existsb plain s); [|exact IH].
  cbn [map]. now rewrite IH.
Qed.

Lemma texts_worth_reading_app (before after : list (option jsstring)) :
  texts_worth_reading (before ++ after) =
    texts_worth_reading before ++ texts_worth_reading after.
Proof.
  induction before as [|t before IH]; [reflexivity|].
  cbn [app texts_worth_reading]. rewrite IH.
  destruct (worth_reading t), t; reflexivity.
Qed.

(** X24. What [processImages] keeps of the answer of the background
    script are, in their order and as often as they occur, the texts that
    are there and have a character that is not white space: the kept list
    is the answer filtered by that test, nothing moved, doubled or dropped
    besides.  So every text the reader goes on to read gives [speak] at
    least one word that is not empty: the degenerate word lists of empty
    and white-space-only text do not arise. *)
Theorem kept_texts_have_words
    (texts : list (option jsstring)) (text : jsstring) :
  map Some (texts_worth_reading texts) =
    filter (fun t => match t with
                     | Some s => existsb plain s
                     | None => false
                     end) texts
  /\ (forall before after : list (option jsstring),
        texts = before ++ after ->
        texts_worth_reading texts =
          texts_worth_reading before ++ texts_worth_reading after)
  /\ (In text (texts_worth_reading texts)
      <-> In (Some text) texts /\ existsb plain text = true)
  /\ (In text (texts_worth_reading texts) ->
      forall (options : TTS.Options.t) (w : TTS.world),
      exists word,
        In word (TTS.words (TTS.this (TTS.speak text options w)))
        /\ is_word word = true).
Proof.
  split; [apply texts_worth_reading_filter|].
  split.
  { intros before after ->. apply texts_worth_reading_app. }
  split; [apply texts_worth_reading_in|].
  intros Hin options w.
  apply texts_worth_reading_in in Hin as [_ Hplain].
  destruct (speak_state text options w) as (_ & -> & _).
  apply plain_text_has_word, Hplain.
Qed.

End Reading.

Section LateEvents.
Import Reader.

Lemma kept_texts_have_words_witness :
  In (str " x") (texts_worth_reading [Some (str "  "); None; Some (str " x")])
  /\ exists word,
       In word (words (this (speak (str " x") (observed_by 1 2) (fresh []))))
       /\ is_word word = true.
Proof.
  assert (Hin : In (str " x")
                   (texts_worth_reading [Some (str "  "); None; Some (str " x")]))
    by (left; reflexivity).
  split; [exact Hin|].
  destruct (kept_texts_have_words
              [Some (str "  "); None; Some (str " x")] (str " x"))
    as (_ & _ & _ & Hword).
  exact (Hword Hin (observed_by 1 2) (fresh [])).
Defined.

(** X25. In any state a run can reach, a word-boundary event hands
    [onWordChange] a word that is defined exactly when there is an
    utterance: then it is the element of [words] at the new [wordIndex].
    With no utterance, as after [stop()], the event leaves [wordIndex] at 0
    and the word is [undefined]. *)
Theorem late_boundary_event
    (vs : list Voice.t) (steps : list step) (offset : Z) :
  let w := run steps (fresh vs) in
  let w' := onboundary (word_event offset) w in
  trace w' =
    trace w ++ match onWordChange (this w) with
               | cb_function f =>
                   [call_onWordChange f (currentWord (this w'))
                      (wordIndex (this w'))]
               | _ => []
               end
  /\ match utterance (this w) with
     | Some _ =>
         exists word,
           currentWord (this w') = Some word
           /\ index (words (this w')) (wordIndex (this w')) = Some word
     | None => currentWord (this w') = None /\ wordIndex (this w') = 0%Z
     end.
Proof.
  cbv zeta.
  pose proof (run_invariant steps (fresh vs) (fresh_invariant vs)) as Hinv.
  set (w := run steps (fresh vs)) in *.
  pose proof (onboundary_word offset w) as Hhandler. cbv zeta in Hhandler.
  destruct Hhandler as (Hi & Hword & _ & Hwords & Htrace).
  split.
  - rewrite Htrace, Hword, Hi. reflexivity.
  - unfold session_invariant in Hinv.
    destruct (utterance (this w)) as [u|].
    + destruct Hinv as (_ & Hsplit & _).
      assert (Hrange : (0 <= word_index_at (currentText (this w)) offset
                        < Z.of_nat (length (words (this w))))%Z)
        by (rewrite Hsplit; apply word_index_at_range).
      destruct (index_defined (words (this w)) _ Hrange) as [word Hdef].
      exists word. rewrite Hword, Hwords, Hi. auto.
    + destruct Hinv as (Htext & Hnone & _).
      rewrite Hword, Hi, Htext, Hnone, word_index_at_empty. auto.
Qed.

End LateEvents.

(* ================================================================== *)
(** * Reading the texts one after the other *)
(* ================================================================== *)

Section ReadingInOrder.
Import Playback.

Lemma spoken_app (t t' : list effect) : spoken (t ++ t') = spoken t ++ spoken t'.
Proof.
  induction t as [|e t IH]; [reflexivity|].
  destruct e; simpl; rewrite IH; reflexivity.
Qed.

Lemma speak_spoken (text : jsstring) (options : Options.t) (w : world) :
  spoken (trace (speak text options w)) = spoken (trace w) ++ [text]
  /\ created (speak text options w) = S (created w)
  /\ onEnd (this (speak text options w)) = Options.onEnd options.
Proof.
  destruct w as [m vs n t]. simpl. rewrite !spoken_app. simpl.
  now rewrite app_nil_r.
Qed.

Lemma onend_spoken (w : world) :
  spoken (trace (onend w)) = spoken (trace w)
  /\ created (onend w) = created w
  /\ isCurrentlyPlaying (onend w) = false.
Proof.
  destruct w as [m vs n t]. unfold onend. simpl.
  destruct (onEnd m); simpl; rewrite ?spoken_app; simpl;
    rewrite ?app_nil_r; auto.
Qed.








End ReadingInOrder.

Section StopAndLateCompletion.
Import Playback.

Lemma stop_spoken (w : world) :
  spoken (trace (stop w)) = spoken (trace w)
  /\ created (stop w) = created w
  /\ onEnd (this (stop w)) = onEnd (this w).
Proof.
  destruct w as [m vs n t]. simpl. rewrite spoken_app. simpl.
  now rewrite app_nil_r.
Qed.

(** X27. [stopReading()] does not end the reading for good when the
    engine reports the end of the utterance it has just cancelled: that
    completion event still runs the reader's [onEnd], the index moves on,
    and when the timer fires and the preferences arrive the next text is
    submitted to the engine and plays, with no overlay and the reader
    inactive. *)
Theorem completion_after_stop_reads_on
    (settings : Storage.sync) (p : t) (first second : jsstring) :
  nth_error (Reader.extractedTexts (reader p)) (currentTextIndex p) = Some first ->
  nth_error (Reader.extractedTexts (reader p)) (S (currentTextIndex p))
    = Some second ->
  pending p = [] ->
  let u := created (Reader.ttsManager (reader p)) in
  let speaking := play [storage_replies settings] (readCurrentText p) in
  let p' :=
    play [user_stops; engine_ends u; timer_fires; storage_replies settings]
      speaking in
  isCurrentlyPlaying (Reader.ttsManager (reader speaking)) = true
  /\ currentText (this (Reader.ttsManager (reader speaking))) = first
  /\ Reader.overlay (reader p') = None
  /\ Reader.isActive (reader p') = false
  /\ isCurrentlyPlaying (Reader.ttsManager (reader p')) = true
  /\ currentText (this (Reader.ttsManager (reader p'))) = second
  /\ spoken (trace (Reader.ttsManager (reader p')))
     = spoken (trace (Reader.ttsManager (reader p))) ++ [first; second]
  /\ addToHistory p' = addToHistory p ++ [first; second]
  /\ currentTextIndex p' = S (currentTextIndex p).
Proof.
  destruct p as [[imgs sel texts act w ov bd] idx pend sent].
  cbn [reader currentTextIndex pending addToHistory Reader.extractedTexts
       Reader.ttsManager Reader.overlay Reader.isActive].
  intros Hfirst Hsecond ->. cbv zeta.
  assert (Hidx : (length texts <=? idx) = false).
  { apply Nat.leb_gt. apply nth_error_Some. congruence. }
  assert (Hidx' : (length texts <=? S idx) = false).
  { apply Nat.leb_gt. apply nth_error_Some. congruence. }
  set (options :=
         {| Options.rate := Some (Storage.getDefaultSpeed settings);
            Options.voiceName := Some (Storage.getDefaultVoice settings);
            Options.onWordChange := cb_function highlightWord;
            Options.onEnd := cb_function advance |}).
  set (w1 := speak first options w).
  set (w2 := onend (stop w1)).
  set (w3 := speak second options w2).
  destruct (speak_spoken first options w) as (Hs1 & Hc1 & He1).
  destruct (stop_spoken w1) as (Hs2 & Hc2 & He2).
  destruct (onend_spoken (stop w1)) as (Hs3 & Hc3 & _).
  destruct (speak_spoken second options w2) as (Hs4 & _ & _).
  fold w1 in Hs1, Hc1, He1. fold w2 in Hs3, Hc3. fold w3 in Hs4.
  set (page := fun (o : option jsstring) (tts : world) =>
         {| Reader.images := imgs; Reader.selectedImages := sel;
            Reader.extractedTexts := texts; Reader.isActive := act;
            Reader.ttsManager := tts; Reader.overlay := o;
            Reader.border := bd |}).
  set (ov1 := match ov with Some _ => Some first | None => None end).
  set (p0 := {| reader := page ov1 w; currentTextIndex := idx;
                pending := [storage_get first];
                addToHistory := sent ++ [first] |}).
  set (p1 := {| reader := page ov1 w1; currentTextIndex := idx;
                pending := []; addToHistory := sent ++ [first] |}).
  set (stopped := fun (tts : world) =>
         {| Reader.images := imgs; Reader.selectedImages := [];
            Reader.extractedTexts := texts; Reader.isActive := false;
            Reader.ttsManager := tts; Reader.overlay := None;
            Reader.border :=
              fold_left (fun b img => Reader.set_border (Reader.node img) false b)
                sel bd |}).
  set (p2 := {| reader := stopped (stop w1); currentTextIndex := idx;
                pending := []; addToHistory := sent ++ [first] |}).
  set (p3 := {| reader := stopped w2; currentTextIndex := S idx;
                pending := [next_text_timer];
                addToHistory := sent ++ [first] |}).
  set (p4 := {| reader := stopped w2; currentTextIndex := S idx;
                pending := [storage_get second];
                addToHistory := (sent ++ [first]) ++ [second] |}).
  set (p5 := {| reader := stopped w3; currentTextIndex := S idx;
                pending := [];
                addToHistory := (sent ++ [first]) ++ [second] |}).
  assert (E0 : readCurrentText
                 {| reader := page ov w; currentTextIndex := idx;
                    pending := []; addToHistory := sent |} = p0).
  { unfold readCurrentText. simpl. rewrite Hidx, Hfirst.
    unfold p0, ov1, updateOverlayText. simpl. destruct ov; reflexivity. }
  assert (E1 : handle (storage_replies settings) p0 = p1) by reflexivity.
  assert (E2 : handle user_stops p1 = p2) by reflexivity.
  assert (E3 : handle (engine_ends (created w)) p2 = p3).
  { unfold handle.
    change (Reader.ttsManager (reader p2)) with (stop w1).
    rewrite Hc2, Hc1.
    replace (created w <? S (created w)) with true
      by (symmetry; apply Nat.ltb_lt; lia).
    rewrite He2, He1. reflexivity. }
  assert (E4 : handle timer_fires p3 = p4).
  { unfold p3, p4, stopped, handle. cbn [pending take_timer].
    unfold readCurrentText, with_pending.
    cbn [reader currentTextIndex pending addToHistory Reader.extractedTexts].
    rewrite Hidx', Hsecond. reflexivity. }
  assert (E5 : handle (storage_replies settings) p4 = p5) by reflexivity.
  assert (Hspeaking :
    play [storage_replies settings]
      (readCurrentText
         {| reader :=
              {| Reader.images := imgs; Reader.selectedImages := sel;
                 Reader.extractedTexts := texts; Reader.isActive := act;
                 Reader.ttsManager := w; Reader.overlay := ov;
                 Reader.border := bd |};
            currentTextIndex := idx; pending := []; addToHistory := sent |})
    = p1).
  { change (handle (storage_replies settings)
              (readCurrentText
                 {| reader := page ov w; currentTextIndex := idx;
                    pending := []; addToHistory := sent |}) = p1).
    rewrite E0. exact E1. }
  rewrite Hspeaking.
  assert (Hafter :
    play [user_stops; engine_ends (created w); timer_fires;
          storage_replies settings] p1 = p5).
  { change (handle (storage_replies settings)
              (handle timer_fires
                 (handle (engine_ends (created w)) (handle user_stops p1)))
            = p5).
    now rewrite E2, E3, E4, E5. }
  rewrite Hafter.
  change (Reader.ttsManager (reader p1)) with w1.
  change (Reader.ttsManager (reader p5)) with w3.
  destruct (speak_state first options w) as (Ht1 & _ & _ & Hp1 & _).
  destruct (speak_state second options w2) as (Ht3 & _ & _ & Hp3 & _).
  fold w1 in Ht1, Hp1. fold w3 in Ht3, Hp3.
  rewrite Hs4, Hs3, Hs2, Hs1, <- !app_assoc.
  repeat split; auto.
  unfold p5. cbn [addToHistory]. now rewrite <- app_assoc.
Qed.

Lemma completion_after_stop_reads_on_witness :
  nth_error (Reader.extractedTexts (reader (on_texts two_texts with_overlay))) 0
    = Some (str "Hello world")
  /\ nth_error (Reader.extractedTexts (reader (on_texts two_texts with_overlay))) 1
     = Some (str "Bye")
  /\ spoken
       (trace (Reader.ttsManager
          (reader
             (play [storage_replies Storage.unset; user_stops; engine_ends 0;
                    timer_fires; storage_replies Storage.unset]
                (on_texts two_texts with_overlay)))))
     = [str "Hello world"; str "Bye"].
Proof.
  split; [reflexivity|]. split; [reflexivity|].
  destruct (completion_after_stop_reads_on Storage.unset
              {| reader :=
                   set_extractedTexts (Reader.texts_worth_reading two_texts)
                     (reader with_overlay);
                 currentTextIndex := 0; pending := []; addToHistory := [] |}
              (str "Hello world") (str "Bye") eq_refl eq_refl eq_refl)
    as (_ & _ & _ & _ & _ & _ & Hspoken & _).
  exact Hspoken.
Defined.

End StopAndLateCompletion.
